(** * django-import-export-extensions: the export admin mixin and the job API

    A shallow embedding of [CeleryExportAdminMixin]
    (import_export_extensions/admin/mixins/export_mixin.py) and of the job
    API exercised by test_project/tests/integration_tests/test_api/test_export.py.

    Python data is modelled as the code has it: [str] as [string], a [dict]
    with string keys as a [gmap string _], a [list] as a [list], an exception
    as a constructor of [exn] raised through the [result] monad. *)

From Stdlib Require Import Ascii.
From stdpp Require Import gmap strings list fin_maps pretty.

(** ** Exceptions and results *)

Inductive exn :=
  | IndexError
  | Http404.

Inductive result (A : Type) :=
  | Ok (a : A)
  | Raise (e : exn).
Arguments Ok {A} a.
Arguments Raise {A} e.

Global Instance result_ret : MRet result := λ A a, Ok a.
Global Instance result_bind : MBind result := λ A B f r,
  match r with
  | Ok a => f a
  | Raise e => Raise e
  end.

(** ** Python string primitives used by the mixin *)

(** [s[0]]: the one-character string at index 0, [IndexError] on [""]. *)
Definition str_index0 (s : string) : result string :=
  match s with
  | EmptyString => Raise IndexError
  | String c _ => Ok (String c "")
  end.

(** [strip_prefix p s] is [Some r] when [s = p ++ r]. *)
Fixpoint strip_prefix (p s : string) : option string :=
  match p, s with
  | EmptyString, _ => Some s
  | String a p', String b s' =>
      if decide (a = b) then strip_prefix p' s' else None
  | String _ _, EmptyString => None
  end.

(** [str.removeprefix]: [s[len(p):]] when [s.startswith(p)], else [s]. *)
Definition removeprefix (s p : string) : string :=
  default s (strip_prefix p s).

(** [c in s]. *)
Fixpoint str_mem (c : ascii) (s : string) : bool :=
  match s with
  | EmptyString => false
  | String a s => bool_decide (a = c) || str_mem c s
  end.

(** ** [CeleryExportAdminMixin._export_construct_search] *)

Definition _export_construct_search (field_name : string)
  : result (string * string) :=
  search_type ← str_index0 field_name;
  let '(search_type, lookup) :=
    if decide (search_type = "^") then (search_type, "istartswith")
    else if decide (search_type = "=") then (search_type, "iexact")
    else if decide (search_type = "@") then (search_type, "search")
    else ("", "icontains") in
  let field_name := removeprefix field_name search_type in
  Ok (field_name +:+ "__" +:+ lookup, field_name).

(** *** The prefix convention in the specification's words *)

Inductive search_operator :=
  | StartsWith
  | ExactMatch
  | FullTextSearch
  | Contains.

(** [^] starts-with, [=] exact-match, [@] full-text-search, anything else
    (no prefix) contains. *)
Definition prefix_operator (c : ascii) : search_operator :=
  if decide (c = "^"%char) then StartsWith
  else if decide (c = "="%char) then ExactMatch
  else if decide (c = "@"%char) then FullTextSearch
  else Contains.

Definition is_search_prefix (c : ascii) : bool :=
  bool_decide (c = "^"%char ∨ c = "="%char ∨ c = "@"%char).

(** The field name without its one-character prefix, when it has one. *)
Definition strip_search_prefix (field_name : string) : string :=
  match field_name with
  | EmptyString => ""
  | String c rest => if is_search_prefix c then rest else field_name
  end.

(** The field lookups of Django's ORM that occur here, as Django documents
    them: the operator, and whether it ignores case.  The ORM is an external
    collaborator; the mixin only produces the lookup's name. *)
Definition django_lookup (name : string) : option (search_operator * bool) :=
  if decide (name = "istartswith") then Some (StartsWith, true)
  else if decide (name = "startswith") then Some (StartsWith, false)
  else if decide (name = "iexact") then Some (ExactMatch, true)
  else if decide (name = "exact") then Some (ExactMatch, false)
  else if decide (name = "search") then Some (FullTextSearch, true)
  else if decide (name = "icontains") then Some (Contains, true)
  else if decide (name = "contains") then Some (Contains, false)
  else None.

Definition lookup_name (op : search_operator) : string :=
  match op with
  | StartsWith => "istartswith"
  | ExactMatch => "iexact"
  | FullTextSearch => "search"
  | Contains => "icontains"
  end.

(** The lookup the mixin derives for a field name, read off its first
    character. *)
Definition search_lookup (field_name : string) : string :=
  match field_name with
  | EmptyString => "icontains"
  | String c _ => lookup_name (prefix_operator c)
  end.


(** The two components [_export_construct_search] returns for a non-empty
    field name: [model_field], the column, and [lookup_field], the key of
    the search entry. *)
Definition model_field_of (search_field : string) : string :=
  strip_search_prefix search_field.

Definition lookup_field_of (search_field : string) : string :=
  model_field_of search_field +:+ "__" +:+ search_lookup search_field.

(** The search fields whose column did not occur before them, neither in
    [used] nor earlier in the list: the first occurrence of every column. *)
Fixpoint first_occurrences (used : list string) (search_fields : list string)
  : list string :=
  match search_fields with
  | [] => []
  | f :: search_fields =>
      if decide (model_field_of f ∈ used)
      then first_occurrences used search_fields
      else f :: first_occurrences (used ++ [model_field_of f]) search_fields
  end.

(** The entries the loop writes for the fields it keeps. *)
Definition insert_all (v : string) (search_kwargs : gmap string string)
    (fields : list string) : gmap string string :=
  foldl (λ kw f, <[lookup_field_of f := v]> kw) search_kwargs fields.

(** ** Requests, the model admin, and Python values *)

(** The values a [dict] of keyword arguments holds here. *)
Inductive value :=
  | VStr (s : string)
  | VList (l : list string)
  | VDict (d : gmap string string).

(** [WSGIRequest]: [GET] is the query string as [dict(request.GET)] exposes
    it, every key with the list of its values in order; [user] is the
    authenticated principal. *)
Record WSGIRequest := {
  GET : gmap string (list string);
  user : nat;
}.

(** What the mixin reads from [self]. *)
Record ModelAdmin := {
  get_search_fields : WSGIRequest → list string;
  get_list_filter : WSGIRequest → list string;
}.

(** ** [CeleryExportAdminMixin._export_get_search_filter] *)

(** The [for search_field in ...] loop, with its two accumulators. *)
Fixpoint search_filter_loop (search_fields : list string)
    (extracted_value : string)
    (search_kwargs : gmap string string) (used_fields : list string)
  : result (gmap string string) :=
  match search_fields with
  | [] => Ok search_kwargs
  | search_field :: search_fields =>
      '(lookup_field, model_field) ← _export_construct_search search_field;
      if decide (model_field ∈ used_fields)
      then search_filter_loop search_fields extracted_value
             search_kwargs used_fields
      else search_filter_loop search_fields extracted_value
             (<[lookup_field := extracted_value]> search_kwargs)
             (used_fields ++ [model_field])
  end.

Definition _export_get_search_filter (self : ModelAdmin)
    (request : WSGIRequest) (value : list string)
  : result (gmap string string) :=
  let extracted_value :=
    match value with
    | v :: _ => v
    | [] => ""
    end in
  search_filter_loop (get_search_fields self request) extracted_value ∅ [].

(** ** [CeleryExportAdminMixin._export_get_admin_filter] *)

(** The dict comprehension
    [{key: value for key in query_params for value in query_params[key]
      if key in self.get_list_filter(request)}]: every value of a permitted
    key is stored under the key in turn.  Distinct keys write distinct
    entries, so the order in which the keys are visited is immaterial. *)
Definition admin_filter_comprehension (self : ModelAdmin)
    (request : WSGIRequest) (query_params : gmap string (list string))
  : gmap string value :=
  map_fold
    (λ key values admin_filter,
       foldl (λ admin_filter value,
                if decide (key ∈ get_list_filter self request)
                then <[key := VStr value]> admin_filter
                else admin_filter)
             admin_filter values)
    ∅ query_params.

Definition _export_get_admin_filter (self : ModelAdmin)
    (request : WSGIRequest) : result (gmap string value) :=
  let query_params := GET request in
  let q := default [] (query_params !! "q") in
  let query_params := delete "q" query_params in
  search_kwargs ← _export_get_search_filter self request q;
  let admin_filter := admin_filter_comprehension self request query_params in
  Ok (<["search" := VDict search_kwargs]> admin_filter).

(** The two names the resolver keeps for itself: [q] is popped from the
    query parameters before the comprehension runs, and the entry [search]
    is assigned after it. *)
Definition reserved (key : string) : Prop := key = "q" ∨ key = "search".

Global Instance reserved_dec key : Decision (reserved key).
Proof. unfold reserved. apply _. Defined.

(** ** Export jobs and the database *)

(** Modelled from the spec: [models.ExportJob.ExportStatus], whose
    declaration is not among the sources; the members are the ones the
    tests name. *)
Inductive ExportStatus :=
  | CREATED
  | EXPORTING
  | EXPORTED
  | EXPORT_ERROR
  | CANCELLED.

Global Instance ExportStatus_eq_dec : EqDecision ExportStatus.
Proof. solve_decision. Defined.

(** Modelled from the spec: the fields of [models.ExportJob] that the mixin
    and the tests touch. *)
Record ExportJob := {
  id : nat;
  export_status : ExportStatus;
  resource_path : string;
  resource_kwargs : gmap string value;
  file_format_path : string;
  created_by : option nat;
}.

(** Modelled from the spec: the persistence layer and the queue of the
    background executor, which are not among the sources: the saved jobs by
    primary key, and the ids of the jobs whose export has been started, in
    the order they were handed over. *)
Record database := {
  jobs : gmap nat ExportJob;
  queue : list nat;
}.

(** Modelled from the spec: [models.ExportJob.objects.create], which is not
    among the sources: the row gets a primary key no row has, the default
    status [CREATED], and is saved.  Unlike the spec's Job Factory, the
    creation also starts the export, handing the new job to the background
    executor: the docstring of the mixin has the POST "create ExportJob and
    starts data export", and neither [celery_export_action] nor
    [create_export_job] calls anything but the creation. *)
Definition ExportJob_objects_create (resource_path : string)
    (resource_kwargs : gmap string value) (file_format_path : string)
    (created_by : option nat) (db : database) : ExportJob * database :=
  let pk := fresh (dom (jobs db)) in
  let job := {| id := pk;
                export_status := CREATED;
                resource_path := resource_path;
                resource_kwargs := resource_kwargs;
                file_format_path := file_format_path;
                created_by := created_by |} in
  (job, {| jobs := <[pk := job]> (jobs db); queue := queue db ++ [pk] |}).

(** [django.shortcuts.get_object_or_404(models.ExportJob, id=job_id)]. *)
Definition get_object_or_404 (db : database) (job_id : nat) : result ExportJob :=
  match jobs db !! job_id with
  | Some job => Ok job
  | None => Raise Http404
  end.

Record ResourceType := { class_path : string }.

Record FormatType := { __module__ : string; __name__ : string }.

(** ** [CeleryExportAdminMixin.create_export_job] *)

Definition create_export_job (request : WSGIRequest)
    (resource_class : ResourceType) (resource_kwargs : gmap string value)
    (file_format : FormatType) (db : database) : ExportJob * database :=
  ExportJob_objects_create
    (class_path resource_class)
    resource_kwargs
    (__module__ file_format +:+ "." +:+ __name__ file_format)
    None
    db.

(** ** [CeleryExportAdminMixin.get_export_job] *)

Definition get_export_job (request : WSGIRequest) (job_id : nat)
    (db : database) : result ExportJob :=
  get_object_or_404 db job_id.


(** ** The job API

    The API views (start, detail, cancel) are not among the sources; their
    tests are.  Every definition of this module is modelled from the
    specification and from what those tests assert. *)

Module Api.

(** Modelled from the spec: the error taxonomy of the Status/Result Query
    Service and of the FilterSpec Resolver; the API views that raise them
    are missing.  A validation error carries its messages by field, as
    [response.data] has them. *)
Inductive error :=
  | NotFoundError
  | InvalidStateError (job_id : nat) (current : ExportStatus)
      (allowed : list ExportStatus)
  | ValidationError (errors : gmap string (list string)).

(** Modelled from the spec: what an operation of the API gives back, the
    value or one error of the taxonomy. *)
Inductive outcome (A : Type) :=
  | Success (a : A)
  | Failure (e : error).
Arguments Success {A} a.
Arguments Failure {A} e.

(** Modelled from the spec: [ExportStatus.value], from the missing model
    declaration. *)
Definition status_value (st : ExportStatus) : string :=
  match st with
  | CREATED => "CREATED"
  | EXPORTING => "EXPORTING"
  | EXPORTED => "EXPORTED"
  | EXPORT_ERROR => "EXPORT_ERROR"
  | CANCELLED => "CANCELLED"
  end.

(** [", ".join(parts)]. *)
Fixpoint str_join (sep : string) (parts : list string) : string :=
  match parts with
  | [] => ""
  | [p] => p
  | p :: parts => p +:+ sep +:+ str_join sep parts
  end.

(** Python's [repr] of a list of strings: [['CREATED', 'EXPORTING']]. *)
Definition repr_list (l : list string) : string :=
  "[" +:+ str_join ", " ((λ s, "'" +:+ s +:+ "'") <$> l) +:+ "]".

(** Modelled from the spec: the message of the missing cancel view, in the
    words [test_export_api_cancel_with_errors] expects. *)
Definition invalid_state_message (job_id : nat) (current : ExportStatus)
    (allowed : list ExportStatus) : string :=
  "ExportJob with id " +:+ pretty job_id
    +:+ " has incorrect status: `" +:+ status_value current
    +:+ "`. Expected statuses: " +:+ repr_list (status_value <$> allowed).

(** Modelled from the spec: ownership-scoped visibility of the missing
    detail view: a job whose [created_by] is set is visible to that
    principal only. *)
Definition visible (job : ExportJob) (requester : nat) : bool :=
  match created_by job with
  | None => true
  | Some owner => bool_decide (owner = requester)
  end.

(** Modelled from the spec: [getStatus(jobId, requester)] of the missing
    detail view. *)
Definition getStatus (db : database) (job_id : nat) (requester : nat)
  : outcome ExportJob :=
  match jobs db !! job_id with
  | Some job => if visible job requester then Success job
                else Failure NotFoundError
  | None => Failure NotFoundError
  end.

(** Modelled from the spec: the statuses from which the missing cancel
    view lets a job be cancelled. *)
Definition cancellable : list ExportStatus := [CREATED; EXPORTING].

(** Modelled from the spec: a status transition of the missing model: the
    job with its status replaced and every other field kept. *)
Definition set_status (job : ExportJob) (st : ExportStatus) : ExportJob :=
  {| id := id job;
     export_status := st;
     resource_path := resource_path job;
     resource_kwargs := resource_kwargs job;
     file_format_path := file_format_path job;
     created_by := created_by job |}.

(** Modelled from the spec: [cancel(jobId, requester)] of the missing
    cancel view. *)
Definition cancel (db : database) (job_id : nat) (requester : nat)
  : outcome (ExportJob * database) :=
  match getStatus db job_id requester with
  | Failure e => Failure e
  | Success job =>
      if decide (export_status job ∈ cancellable)
      then
        let job := set_status job CANCELLED in
        Success (job, {| jobs := <[job_id := job]> (jobs db);
                         queue := queue db |})
      else Failure (InvalidStateError job_id (export_status job) cancellable)
  end.

(** [value.split(sep)] for a one-character separator. *)
Fixpoint str_split (sep : ascii) (s : string) : list string :=
  match s with
  | EmptyString => [""]
  | String c s =>
      if decide (c = sep) then "" :: str_split sep s
      else match str_split sep s with
           | token :: tokens => String c token :: tokens
           | [] => [String c ""]
           end
  end.

(** Modelled from the spec: the field an ordering token of the missing
    start view names: the token without its leading [-]. *)
Definition ordering_field (token : string) : string :=
  removeprefix token "-".

(** Modelled from the spec: the message of the missing ordering
    validation, in the words
    [test_export_api_create_export_job_with_invalid_ordering] expects. *)
Definition ordering_message (token : string) : string :=
  "Cannot resolve keyword '" +:+ token +:+ "' into field.".

(** Modelled from the spec: resolution of the reserved key [ordering] by
    the missing start view: the value is split on commas, and the first
    token that names no orderable field fails validation. *)
Definition resolve_ordering (orderable : list string) (value : string)
  : outcome (list string) :=
  let tokens := str_split "," value in
  match list_find (λ token, ordering_field token ∉ orderable) tokens with
  | Some (_, token) =>
      Failure (ValidationError {[ "ordering" := [ordering_message token] ]})
  | None => Success tokens
  end.

(** Modelled from the spec: the types of the fields the resource filters
    on. *)
Inductive field_type :=
  | IntegerField
  | CharField.

(** [s.isdigit()], true of the empty string here. *)
Fixpoint all_digits (s : string) : bool :=
  match s with
  | EmptyString => true
  | String c s => bool_decide (is_Some (Ascii.is_nat c)) && all_digits s
  end.

(** Modelled from the spec: a numeric value for the missing start view's
    validation: digits, at least one, after an optional sign. *)
Definition is_numeric (s : string) : bool :=
  match s with
  | EmptyString => false
  | String c rest =>
      if decide (c = "-"%char)
      then bool_decide (rest ≠ "") && all_digits rest
      else all_digits s
  end.

(** Modelled from the spec: whether a value can be coerced to a field's
    type, and the field-specific message when it cannot. *)
Definition coercible (t : field_type) (v : string) : bool :=
  match t with
  | IntegerField => is_numeric v
  | CharField => true
  end.

(** Modelled from the spec: the field-specific message; the one of an
    integer field is what
    [test_export_api_create_export_job_with_invalid_filter_kwargs]
    expects. *)
Definition coercion_message (t : field_type) : string :=
  match t with
  | IntegerField => "Enter a number."
  | CharField => "Enter a valid value."
  end.

(** Modelled from the spec: what the missing start view knows of the
    resource: its orderable fields and its permitted filter fields with
    their types. *)
Record Resource := {
  resource_class : ResourceType;
  orderable_fields : list string;
  filterset : gmap string field_type;
}.

(** Modelled from the spec: the query parameters the missing start view
    matches against the filter fields: all but the reserved keys [q] and
    [ordering]. *)
Definition remaining_params (query_params : gmap string (list string))
  : gmap string (list string) :=
  delete "ordering" (delete "q" query_params).

(** Modelled from the spec: the filter entries of the matched keys. *)
Definition filter_kwargs (r : Resource)
    (query_params : gmap string (list string)) : gmap string string :=
  merge (λ t values,
           match t, values with
           | Some _, Some values => last values
           | _, _ => None
           end)
        (filterset r) (remaining_params query_params).

(** Modelled from the spec: the messages of the matched keys whose value
    cannot be coerced to the field's type. *)
Definition filter_errors (r : Resource)
    (query_params : gmap string (list string)) : gmap string (list string) :=
  merge (λ t values,
           match t, values with
           | Some t, Some values =>
               match last values with
               | Some v => if coercible t v then None
                           else Some [coercion_message t]
               | None => None
               end
           | _, _ => None
           end)
        (filterset r) (remaining_params query_params).

(** Modelled from the spec: the FilterSpec Resolver of the missing start
    view: [{filter_kwargs, ordering}] or a validation error. *)
Definition resolve (r : Resource) (query_params : gmap string (list string))
  : outcome (gmap string value) :=
  let ordering :=
    match query_params !! "ordering" ≫= last with
    | Some value => resolve_ordering (orderable_fields r) value
    | None => Success []
    end in
  let errors := filter_errors r query_params in
  match ordering with
  | Failure (ValidationError ordering_errors) =>
      Failure (ValidationError (ordering_errors ∪ errors))
  | Failure e => Failure e
  | Success ordering =>
      if decide (errors = ∅)
      then Success {[ "filter_kwargs" := VDict (filter_kwargs r query_params);
                      "ordering" := VList ordering ]}
      else Failure (ValidationError errors)
  end.

(** Modelled from the spec: the body of a response of the missing views:
    the job, the messages by field, or a list of messages. *)
Inductive response_data :=
  | JobData (job : ExportJob)
  | ErrorDict (errors : gmap string (list string))
  | ErrorList (messages : list string)
  | NoData.

(** Modelled from the spec: a response of the missing views, with its HTTP
    status. *)
Record response := {
  status_code : nat;
  data : response_data;
}.

(** Modelled from the spec: the HTTP statuses of the missing views: 201 on
    creation, 200 on status and cancel, 404 when the job is not visible,
    400 on a validation or cancel-state error. *)
Definition error_response (e : error) : response :=
  match e with
  | NotFoundError => {| status_code := 404; data := NoData |}
  | InvalidStateError job_id current allowed =>
      {| status_code := 400;
         data := ErrorList [invalid_state_message job_id current allowed] |}
  | ValidationError errors =>
      {| status_code := 400; data := ErrorDict errors |}
  end.

(** Modelled from the spec: the missing start view: resolve the query
    parameters, and only then create the job. *)
Definition start (r : Resource) (file_format : FormatType)
    (request : WSGIRequest) (db : database) : response * database :=
  match resolve r (GET request) with
  | Failure e => (error_response e, db)
  | Success kwargs =>
      let '(job, db) :=
        ExportJob_objects_create
          (class_path (resource_class r)) kwargs
          (__module__ file_format +:+ "." +:+ __name__ file_format)
          (Some (user request)) db in
      ({| status_code := 201; data := JobData job |}, db)
  end.

(** Modelled from the spec: the missing detail view. *)
Definition detail (job_id : nat) (request : WSGIRequest) (db : database)
  : response :=
  match getStatus db job_id (user request) with
  | Success job => {| status_code := 200; data := JobData job |}
  | Failure e => error_response e
  end.

(** Modelled from the spec: the missing cancel view. *)
Definition cancel_view (job_id : nat) (request : WSGIRequest) (db : database)
  : response * database :=
  match cancel db job_id (user request) with
  | Success (job, db) => ({| status_code := 200; data := JobData job |}, db)
  | Failure e => (error_response e, db)
  end.

End Api.

(** ** The views of [CeleryExportAdminMixin]

    What the views take from Django and from [import_export] -- the
    permission check, the export form, the formats, the template contexts,
    [reverse], [urlencode], [gettext_lazy] -- is not part of this
    repository: it is a field of [ExportAdmin], so that every statement
    about a view holds whatever these collaborators answer. *)

(** What escapes a view: [PermissionDenied], raised by the views
    themselves, or an exception of the functions they call. *)
Inductive view_exn :=
  | PermissionDenied
  | Uncaught (e : exn).

Inductive view_result (A : Type) :=
  | Done (a : A)
  | Fail (e : view_exn).
Arguments Done {A} a.
Arguments Fail {A} e.

(** [l[i]] for a Python list: a negative index counts from the end, and an
    index outside [-len(l) .. len(l) - 1] raises [IndexError]. *)
Definition list_getitem {A} (l : list A) (i : Z) : result A :=
  let n := Z.of_nat (length l) in
  let j := if decide (i < 0)%Z then (i + n)%Z else i in
  if decide (0 ≤ j)%Z
  then match l !! Z.to_nat j with
       | Some x => Ok x
       | None => Raise IndexError
       end
  else Raise IndexError.

(** The request of a view: the [WSGIRequest] above and its [method]. *)
Record AdminRequest := {
  wsgi : WSGIRequest;
  method : string;
}.

(** The export form as the views use it: [form.is_valid()] and
    [int(form.cleaned_data["format"])]. *)
Record ExportForm := {
  is_valid : bool;
  format_index : Z;
}.

(** The values of a template context. *)
Inductive context_value :=
  | CText (s : string)
  | CForm (form : ExportForm)
  | CJob (job : ExportJob)
  | CStatus (st : ExportStatus)
  | CUrl (url : string)
  | COpaque (v : value).

(** [HttpResponseRedirect(redirect_to=url)], and
    [TemplateResponse(request, template, context)] together with the
    [current_app] the view has set on the request, if it has. *)
Inductive HttpResponse :=
  | HttpResponseRedirect (redirect_to : string)
  | TemplateResponse (template : list string)
      (context : gmap string context_value) (current_app : option string).

(** [self], for the views. *)
Record ExportAdmin := {
  mixin : ModelAdmin;
  has_export_permission : AdminRequest → bool;
  get_export_formats : list FormatType;
  export_form : AdminRequest → ExportForm;
  choose_export_resource_class : ExportForm → AdminRequest → ResourceType;
  get_export_resource_kwargs : AdminRequest → result (gmap string value);
  get_context_data : gmap string context_value;
  each_context : AdminRequest → gmap string context_value;
  gettext : string → string;
  model_info_meta : context_value;
  model_meta : context_value;
  admin_site_name : string;
  app_model_name : string;
  export_results_statuses : list ExportStatus;
  reverse : string → nat → string;
  urlencode : gmap string (list string) → string;
}.

Definition celery_export_template_name : string :=
  "admin/import_export/export.html".

Definition export_status_template_name : string :=
  "admin/import_export_extensions/celery_export_status.html".

Definition export_results_template_name : string :=
  "admin/import_export_extensions/celery_export_results.html".

(** [CeleryExportAdminMixin.get_export_context_data]. *)
Definition get_export_context_data (self : ExportAdmin)
  : gmap string context_value :=
  get_context_data self.

(** [CeleryExportAdminMixin._redirect_to_export_status_page]. *)
Definition _redirect_to_export_status_page (self : ExportAdmin)
    (request : AdminRequest) (job : ExportJob) : HttpResponse :=
  let url_name :=
    admin_site_name self +:+ ":" +:+ app_model_name self
      +:+ "_export_job_status" in
  let url := reverse self url_name (id job) in
  let query := urlencode self (GET (wsgi request)) in
  let url := if decide (query = "") then url else url +:+ "?" +:+ query in
  HttpResponseRedirect url.

(** [CeleryExportAdminMixin._redirect_to_export_results_page]. *)
Definition _redirect_to_export_results_page (self : ExportAdmin)
    (request : AdminRequest) (job : ExportJob) : HttpResponse :=
  let url_name :=
    admin_site_name self +:+ ":" +:+ app_model_name self
      +:+ "_export_job_results" in
  let url := reverse self url_name (id job) in
  let query := urlencode self (GET (wsgi request)) in
  let url := if decide (query = "") then url else url +:+ "?" +:+ query in
  HttpResponseRedirect url.

(** [CeleryExportAdminMixin.celery_export_action]. *)
Definition celery_export_action (self : ExportAdmin) (request : AdminRequest)
    (db : database) : view_result (HttpResponse * database) :=
  if negb (has_export_permission self request) then Fail PermissionDenied
  else
    let formats := get_export_formats self in
    let form := export_form self request in
    match get_export_resource_kwargs self request with
    | Raise e => Fail (Uncaught e)
    | Ok resource_kwargs =>
        if bool_decide (method request = "POST") && is_valid form
        then
          match list_getitem formats (format_index form) with
          | Raise e => Fail (Uncaught e)
          | Ok file_format =>
              let '(job, db) :=
                create_export_job (wsgi request)
                  (choose_export_resource_class self form request)
                  resource_kwargs file_format db in
              Done (_redirect_to_export_status_page self request job, db)
          end
        else
          let context := get_export_context_data self in
          let context := each_context self request ∪ context in
          let context := <["title" := CText (gettext self "Export")]> context in
          let context := <["form" := CForm form]> context in
          let context := <["opts" := model_info_meta self]> context in
          Done (TemplateResponse [celery_export_template_name] context
                  (Some (admin_site_name self)), db)
    end.

(** [CeleryExportAdminMixin.export_job_status_view]. *)
Definition export_job_status_view (self : ExportAdmin) (request : AdminRequest)
    (job_id : nat) (db : database) : view_result HttpResponse :=
  if negb (has_export_permission self request) then Fail PermissionDenied
  else
    match get_export_job (wsgi request) job_id db with
    | Raise e => Fail (Uncaught e)
    | Ok job =>
        if decide (export_status job ∈ export_results_statuses self)
        then Done (_redirect_to_export_results_page self request job)
        else
          let context := get_export_context_data self in
          let job_url := reverse self "admin:export_job_progress" (id job) in
          let context :=
            <["title" := CText (gettext self "Export status")]> context in
          let context := <["opts" := model_info_meta self]> context in
          let context := <["export_job" := CJob job]> context in
          let context := <["export_job_url" := CUrl job_url]> context in
          Done (TemplateResponse [export_status_template_name] context
                  (Some (admin_site_name self)))
    end.

(** [CeleryExportAdminMixin.export_job_results_view]. *)
Definition export_job_results_view (self : ExportAdmin)
    (request : AdminRequest) (job_id : nat) (db : database)
  : view_result HttpResponse :=
  if negb (has_export_permission self request) then Fail PermissionDenied
  else
    match get_export_job (wsgi request) job_id db with
    | Raise e => Fail (Uncaught e)
    | Ok job =>
        if decide (export_status job ∈ export_results_statuses self)
        then
          let context := get_export_context_data self in
          let context :=
            <["title" := CText (gettext self "Export results")]> context in
          let context := <["opts" := model_meta self]> context in
          let context := <["export_job" := CJob job]> context in
          let context := <["result" := CStatus (export_status job)]> context in
          Done (TemplateResponse [export_results_template_name] context None)
        else Done (_redirect_to_export_status_page self request job)
    end.

(** An admin of the test project, for the examples: two formats, a form
    that is valid on a POST and picks the second format, and its export
    permission as given. *)
Definition sample_admin (permitted : bool) : ExportAdmin :=
  {| mixin := {| get_search_fields := λ _, ["name"];
                 get_list_filter := λ _, ["name"] |};
     has_export_permission := λ _, permitted;
     get_export_formats :=
       [ {| __module__ := "import_export.formats.base_formats";
            __name__ := "CSV" |};
         {| __module__ := "import_export.formats.base_formats";
            __name__ := "JSON" |} ];
     export_form := λ request,
       {| is_valid := bool_decide (method request = "POST");
          format_index := 1 |};
     choose_export_resource_class := λ _ _,
       {| class_path := "test_project.fake_app.resources.ArtistResource" |};
     get_export_resource_kwargs := λ _, Ok ∅;
     get_context_data := ∅;
     each_context := λ _, {[ "site_title" := CText "Django admin" ]};
     gettext := λ s, s;
     model_info_meta := CText "fake_app.artist";
     model_meta := CText "fake_app.artist";
     admin_site_name := "admin";
     app_model_name := "fake_app_artist";
     export_results_statuses := [EXPORTED; EXPORT_ERROR; CANCELLED];
     reverse := λ name job_id, "/" +:+ name +:+ "/" +:+ pretty job_id +:+ "/";
     urlencode := λ _, "" |}.

(** ** [CeleryExportAdminMixin.get_resource_kwargs] *)

(** A keyword argument of the resource: a value of the base class, or the
    dict of admin filters. *)
Inductive kwarg :=
  | KwValue (v : value)
  | KwDict (d : gmap string value).

(** [super_kwargs] is what [super().get_resource_kwargs(request, ...)]
    gives, from the base class in [import_export]. *)
Definition get_resource_kwargs (self : ModelAdmin)
    (super_kwargs : result (gmap string kwarg)) (request : WSGIRequest)
  : result (gmap string kwarg) :=
  resource_kwargs ← super_kwargs;
  admin_filters ← _export_get_admin_filter self request;
  Ok (<["admin_filters" := KwDict admin_filters]> resource_kwargs).

(** ** Facts about the string primitives *)

Lemma strip_prefix_app p r : strip_prefix p (p +:+ r) = Some r.
Proof.
  induction p as [|a p IH]; simpl; [done|].
  by rewrite decide_True.
Qed.

Lemma removeprefix_empty s : removeprefix s "" = s.
Proof. by destruct s. Qed.

Lemma removeprefix_head c rest : removeprefix (String c rest) (String c "") = rest.
Proof. unfold removeprefix. simpl. by rewrite decide_True. Qed.

Lemma construct_search_cons c rest :
  _export_construct_search (String c rest) =
    Ok (strip_search_prefix (String c rest) +:+ "__"
          +:+ lookup_name (prefix_operator c),
        strip_search_prefix (String c rest)).
Proof.
  unfold _export_construct_search, prefix_operator, strip_search_prefix,
    is_search_prefix.
  cbn [str_index0 mbind result_bind].
  destruct (decide (c = "^"%char)) as [->|H1].
  { rewrite decide_True by done. by rewrite removeprefix_head. }
  destruct (decide (c = "="%char)) as [->|H2].
  { rewrite decide_False by done. rewrite decide_True by done.
    by rewrite removeprefix_head. }
  destruct (decide (c = "@"%char)) as [->|H3].
  { rewrite !decide_False by done. rewrite decide_True by done.
    by rewrite removeprefix_head. }
  rewrite !decide_False by congruence.
  rewrite bool_decide_eq_false_2 by (intros [?|[?|?]]; done).
  by rewrite removeprefix_empty.
Qed.

Lemma construct_search_nonempty field_name :
  field_name ≠ "" →
  _export_construct_search field_name =
    Ok (lookup_field_of field_name, model_field_of field_name).
Proof.
  destruct field_name as [|c rest]; [done|]. intros _.
  by rewrite construct_search_cons.
Qed.

(** ** The search lookup of one field *)

Example construct_search_startswith :
  _export_construct_search "^name" = Ok ("name__istartswith", "name").
Proof. reflexivity. Qed.

Example construct_search_exact :
  _export_construct_search "=name" = Ok ("name__iexact", "name").
Proof. reflexivity. Qed.

Example construct_search_fulltext :
  _export_construct_search "@bio" = Ok ("bio__search", "bio").
Proof. reflexivity. Qed.

Example construct_search_contains :
  _export_construct_search "name" = Ok ("name__icontains", "name").
Proof. reflexivity. Qed.

(** Only one character is a prefix: a second one stays in the column. *)
Example construct_search_one_prefix :
  _export_construct_search "^=name" = Ok ("=name__istartswith", "=name").
Proof. reflexivity. Qed.

(** C4: for a search field with first character [c], the lookup is read off
    [c] alone: [^] gives [istartswith], [=] gives [iexact], [@] gives
    [search], anything else gives [icontains] and is no prefix; a prefix is
    stripped from the column, which the lookup-field name suffixes with the
    lookup; and Django documents each of the four lookups as the operator of
    the convention, ignoring case. *)
Theorem construct_search_prefix_convention (c : ascii) (rest : string) :
  let op := prefix_operator c in
  let column := if is_search_prefix c then rest else String c rest in
  _export_construct_search (String c rest)
    = Ok (column +:+ "__" +:+ lookup_name op, column)
  ∧ op = (if decide (c = "^"%char) then StartsWith
          else if decide (c = "="%char) then ExactMatch
          else if decide (c = "@"%char) then FullTextSearch
          else Contains)
  ∧ lookup_name op = match op with
                     | StartsWith => "istartswith"
                     | ExactMatch => "iexact"
                     | FullTextSearch => "search"
                     | Contains => "icontains"
                     end
  ∧ django_lookup (lookup_name op) = Some (op, true).
Proof.
  cbv zeta. split; [apply construct_search_cons|].
  split; [done|]. split; [done|].
  by destruct (prefix_operator c).
Qed.

(** C10: the first character is read unguarded, so the empty field name
    raises [IndexError]; every other field name gives the pair of the
    stripped name suffixed with [__] and the lookup, and the stripped
    name. *)
Theorem construct_search_domain (field_name : string) :
  _export_construct_search field_name =
    if decide (field_name = "") then Raise IndexError
    else Ok (strip_search_prefix field_name +:+ "__"
               +:+ search_lookup field_name,
             strip_search_prefix field_name).
Proof.
  destruct field_name as [|c rest]; [done|].
  rewrite decide_False by done. apply construct_search_cons.
Qed.

(** ** Search entries determine their column *)

Lemma string_app_cons c (s t : string) : String c s +:+ t = String c (s +:+ t).
Proof. reflexivity. Qed.

Lemma string_app_nil_l (t : string) : "" +:+ t = t.
Proof. reflexivity. Qed.

Lemma string_app_nil_r (s : string) : s +:+ "" = s.
Proof. induction s as [|c s IH]; [done|]. by rewrite string_app_cons, IH. Qed.

(** Two ways of cutting one string: one prefix extends the other. *)
Lemma string_app_eq_app (a b s t : string) :
  a +:+ s = b +:+ t →
  ∃ d, (a = b +:+ d ∧ t = d +:+ s) ∨ (b = a +:+ d ∧ s = d +:+ t).
Proof.
  revert b. induction a as [|x a IH]; intros b Heq.
  - exists b. right. by rewrite !string_app_nil_l in *.
  - destruct b as [|y b].
    + exists (String x a). left. by rewrite !string_app_nil_l in *.
    + rewrite !string_app_cons in Heq. injection Heq as -> Heq.
      destruct (IH _ Heq) as [d [[-> ->]|[-> ->]]]; exists d; auto.
Qed.

(** No lookup suffix ends in another one. *)
Lemma string_cons_inj c1 c2 (s1 s2 : string) :
  String c1 s1 = String c2 s2 → c1 = c2 ∧ s1 = s2.
Proof. by intros [= -> ->]. Qed.

Ltac peel_suffix H d :=
  repeat (first [ discriminate H | apply string_cons_inj in H as [_ H] ];
          destruct d as [|? d];
          rewrite ?string_app_nil_l, ?string_app_cons in H).

Lemma lookup_suffix_inj (a b : string) (o p : search_operator) :
  a +:+ "__" +:+ lookup_name o = b +:+ "__" +:+ lookup_name p → a = b.
Proof.
  intros Heq. apply string_app_eq_app in Heq as [d [[-> Hd]|[-> Hd]]].
  - destruct d as [|x d]; [apply string_app_nil_r|]. exfalso.
    destruct o, p; cbn [lookup_name] in Hd;
      rewrite ?string_app_cons, ?string_app_nil_l in Hd;
      peel_suffix Hd d.
  - destruct d as [|x d]; [by rewrite string_app_nil_r|]. exfalso.
    destruct o, p; cbn [lookup_name] in Hd;
      rewrite ?string_app_cons, ?string_app_nil_l in Hd;
      peel_suffix Hd d.
Qed.

Lemma search_lookup_name f : ∃ o, search_lookup f = lookup_name o.
Proof. destruct f as [|c rest]; [by exists Contains|]. by eexists. Qed.

Lemma lookup_field_inj f g :
  lookup_field_of f = lookup_field_of g → model_field_of f = model_field_of g.
Proof.
  unfold lookup_field_of.
  destruct (search_lookup_name f) as [o ->].
  destruct (search_lookup_name g) as [p ->].
  apply lookup_suffix_inj.
Qed.

(** ** The loop of [_export_get_search_filter] *)

Lemma search_filter_loop_first fields v kw used :
  Forall (λ f, f ≠ "") fields →
  search_filter_loop fields v kw used
    = Ok (insert_all v kw (first_occurrences used fields)).
Proof.
  intros Hne. revert kw used.
  induction Hne as [|f fields Hf _ IH]; intros kw used; [done|].
  cbn [search_filter_loop first_occurrences].
  rewrite (construct_search_nonempty f Hf). cbn [mbind result_bind].
  destruct (decide (model_field_of f ∈ used)); [apply IH|].
  rewrite IH. done.
Qed.

Lemma search_filter_loop_empty_field fields v kw used :
  "" ∈ fields → search_filter_loop fields v kw used = Raise IndexError.
Proof.
  revert kw used. induction fields as [|f fields IH]; intros kw used Hin.
  { by apply not_elem_of_nil in Hin. }
  destruct (decide (f = "")) as [->|Hf]; [done|].
  apply elem_of_cons in Hin as [?|Hin]; [congruence|].
  cbn [search_filter_loop].
  rewrite (construct_search_nonempty f Hf). cbn [mbind result_bind].
  destruct (decide (model_field_of f ∈ used)); by apply IH.
Qed.

Lemma lookup_insert_all v kw fields k :
  insert_all v kw fields !! k =
    if decide (k ∈ lookup_field_of <$> fields) then Some v else kw !! k.
Proof.
  revert kw. induction fields as [|f fields IH]; intros kw.
  { cbn. by rewrite decide_False by apply not_elem_of_nil. }
  unfold insert_all in *. cbn [foldl]. rewrite IH. rewrite fmap_cons.
  destruct (decide (k ∈ lookup_field_of <$> fields)) as [Hin|Hin].
  { rewrite decide_True; [done|]. by apply list_elem_of_further. }
  destruct (decide (k = lookup_field_of f)) as [->|Hk].
  - rewrite lookup_insert_eq. rewrite decide_True; [done|]. apply list_elem_of_here.
  - rewrite lookup_insert_ne by done.
    rewrite decide_False; [done|]. rewrite elem_of_cons. tauto.
Qed.

Lemma dom_insert_all v fields :
  dom (insert_all v ∅ fields) = list_to_set (lookup_field_of <$> fields).
Proof.
  apply set_eq. intros k.
  rewrite elem_of_dom, lookup_insert_all, elem_of_list_to_set.
  case_decide; [naive_solver|].
  rewrite lookup_empty. split; [by intros [? ?]|tauto].
Qed.

(** ** The first occurrence of every column *)

Lemma first_occurrences_not_used used fields f :
  f ∈ first_occurrences used fields → model_field_of f ∉ used.
Proof.
  revert used. induction fields as [|g fields IH]; intros used; cbn.
  { intros []%not_elem_of_nil. }
  case_decide as Hg; [apply IH|].
  intros [->|Hin]%elem_of_cons; [done|].
  apply IH in Hin. intros ?. apply Hin. apply elem_of_app. by left.
Qed.

Lemma elem_of_first_occurrences used fields f :
  f ∈ first_occurrences used fields ↔
  ∃ pre post, fields = pre ++ (f :: post)
    ∧ (model_field_of f ∉ used) ∧ (model_field_of f ∉ model_field_of <$> pre).
Proof.
  revert used. induction fields as [|g fields IH]; intros used; cbn.
  { split; [intros []%not_elem_of_nil|].
    intros (pre & post & Heq & _). by destruct pre. }
  case_decide as Hg.
  - rewrite IH. split.
    + intros (pre & post & -> & Hu & Hp). exists (g :: pre), post.
      split_and!; [done..|]. rewrite fmap_cons, not_elem_of_cons.
      split; [congruence|done].
    + intros (pre & post & Heq & Hu & Hp). destruct pre as [|g' pre].
      * injection Heq as -> ->. done.
      * injection Heq as -> ->. exists pre, post. split_and!; [done..|].
        rewrite fmap_cons, not_elem_of_cons in Hp. tauto.
  - rewrite elem_of_cons, IH. split.
    + intros [->|(pre & post & -> & Hu & Hp)].
      * exists [], fields. split_and!; [done..|]. apply not_elem_of_nil.
      * exists (g :: pre), post. rewrite not_elem_of_app in Hu.
        destruct Hu as [Hu Hg'%not_elem_of_cons].
        split_and!; [done..|]. rewrite fmap_cons, not_elem_of_cons. tauto.
    + intros (pre & post & Heq & Hu & Hp). destruct pre as [|g' pre].
      * injection Heq as -> ->. by left.
      * injection Heq as -> ->. right. exists pre, post.
        rewrite fmap_cons, not_elem_of_cons in Hp.
        split_and!; [done| |tauto].
        rewrite not_elem_of_app, not_elem_of_cons.
        split_and!; [done|tauto|apply not_elem_of_nil].
Qed.

Lemma NoDup_first_occurrences used fields :
  NoDup (model_field_of <$> first_occurrences used fields).
Proof.
  revert used. induction fields as [|g fields IH]; intros used; cbn.
  { constructor. }
  case_decide; [apply IH|].
  rewrite fmap_cons. constructor; [|apply IH].
  intros (f & Heq & Hin)%list_elem_of_fmap.
  apply first_occurrences_not_used in Hin. apply Hin.
  rewrite <- Heq. apply elem_of_app. right. apply list_elem_of_here.
Qed.

Lemma first_occurrences_columns used fields :
  (list_to_set (model_field_of <$> first_occurrences used fields) : gset string)
    = list_to_set (model_field_of <$> fields) ∖ list_to_set used.
Proof.
  revert used. induction fields as [|g fields IH]; intros used; cbn.
  { set_solver. }
  case_decide as Hg.
  - rewrite IH. rewrite ?fmap_cons. cbn.
    assert (Hin : model_field_of g ∈ (list_to_set used : gset string))
      by (by rewrite elem_of_list_to_set).
    revert Hin. generalize (list_to_set used : gset string).
    generalize (list_to_set (model_field_of <$> fields) : gset string).
    generalize (model_field_of g). clear. set_solver.
  - rewrite ?fmap_cons. cbn. rewrite IH, list_to_set_app_L. cbn.
    assert (Hin : model_field_of g ∉ (list_to_set used : gset string))
      by (by rewrite elem_of_list_to_set).
    revert Hin. generalize (list_to_set used : gset string).
    generalize (list_to_set (model_field_of <$> fields) : gset string).
    generalize (model_field_of g). clear. intros x S U Hx.
    apply set_eq. intros y. destruct (decide (y = x)) as [->|]; set_solver.
Qed.

Lemma NoDup_fmap_eq {A B} (f : A → B) (l : list A) x y :
  NoDup (f <$> l) → x ∈ l → y ∈ l → f x = f y → x = y.
Proof.
  induction l as [|z l IH]; [by intros _ ?%not_elem_of_nil|].
  rewrite fmap_cons, NoDup_cons.
  intros [Hz Hnd] [->|Hx]%elem_of_cons [->|Hy]%elem_of_cons Heq; auto.
  - exfalso. apply Hz. rewrite Heq. by apply list_elem_of_fmap_2.
  - exfalso. apply Hz. rewrite <- Heq. by apply list_elem_of_fmap_2.
Qed.

Lemma first_occurrences_subseteq used fields f :
  f ∈ first_occurrences used fields → f ∈ fields.
Proof.
  intros (pre & post & -> & _)%elem_of_first_occurrences.
  apply elem_of_app. right. apply list_elem_of_here.
Qed.

Lemma NoDup_lookup_first_occurrences used fields :
  NoDup (lookup_field_of <$> first_occurrences used fields).
Proof.
  pose proof (NoDup_first_occurrences used fields) as Hnd.
  induction (first_occurrences used fields) as [|f l IH]; [constructor|].
  rewrite fmap_cons, NoDup_cons in Hnd. destruct Hnd as [Hf Hnd].
  rewrite fmap_cons. constructor; [|by apply IH].
  intros (g & Heq & Hg)%list_elem_of_fmap. apply Hf.
  rewrite (lookup_field_inj _ _ Heq). by apply list_elem_of_fmap_2.
Qed.

(** ** The search filter *)

Example search_filter_dedup :
  _export_get_search_filter
    {| get_search_fields := λ _, ["^name"; "=name"; "@bio"];
       get_list_filter := λ _, [] |}
    {| GET := ∅; user := 1 |} ["Art"; "ist"]
  = Ok {[ "name__istartswith" := "Art"; "bio__search" := "Art" ]}.
Proof. vm_compute. reflexivity. Qed.

Example search_filter_without_q :
  _export_get_search_filter
    {| get_search_fields := λ _, ["name"];
       get_list_filter := λ _, [] |}
    {| GET := ∅; user := 1 |} []
  = Ok {[ "name__icontains" := "" ]}.
Proof. vm_compute. reflexivity. Qed.

(** What the loop leaves, for any list of values handed to it. *)
Lemma search_filter_entries (self : ModelAdmin)
    (request : WSGIRequest) (value : list string) :
  let fields := get_search_fields self request in
  let term := default "" (head value) in
  Forall (λ f, f ≠ "") fields →
  ∃ search_kwargs,
    _export_get_search_filter self request value = Ok search_kwargs
    ∧ (∀ k v, search_kwargs !! k = Some v → v = term)
    ∧ (∀ k, k ∈ dom search_kwargs ↔
         ∃ pre f post, fields = pre ++ (f :: post)
           ∧ (model_field_of f ∉ model_field_of <$> pre)
           ∧ k = lookup_field_of f)
    ∧ size search_kwargs
        = size (list_to_set (model_field_of <$> fields) : gset string)
    ∧ (∀ f, f ∈ fields →
         exists! k, k ∈ dom search_kwargs
               ∧ ∃ g, g ∈ fields ∧ model_field_of g = model_field_of f
                      ∧ k = lookup_field_of g).
Proof.
  intros fields term Hne.
  assert (Hterm : (match value with v :: _ => v | [] => "" end) = term)
    by (by destruct value).
  exists (insert_all term ∅ (first_occurrences [] fields)).
  assert (Hdom : ∀ k, k ∈ dom (insert_all term ∅ (first_occurrences [] fields))
                 ↔ ∃ f, f ∈ first_occurrences [] fields ∧ k = lookup_field_of f).
  { intros k. rewrite dom_insert_all, elem_of_list_to_set, list_elem_of_fmap.
    naive_solver. }
  split_and!.
  - unfold _export_get_search_filter. rewrite Hterm.
    by apply search_filter_loop_first.
  - intros k v. rewrite lookup_insert_all. case_decide; [congruence|].
    by rewrite lookup_empty.
  - intros k. rewrite Hdom. split.
    + intros (f & (pre & post & Heq & _ & Hpre)%elem_of_first_occurrences & ->).
      by exists pre, f, post.
    + intros (pre & f & post & Heq & Hpre & ->). exists f. split; [|done].
      apply elem_of_first_occurrences. exists pre, post.
      split_and!; [done| |done]. apply not_elem_of_nil.
  - rewrite <- size_dom, dom_insert_all.
    rewrite (size_list_to_set (C:=gset string)).
    + rewrite length_fmap.
      rewrite <- (length_fmap model_field_of (first_occurrences [] fields)).
      rewrite <- (size_list_to_set (C:=gset string))
        by apply NoDup_first_occurrences.
      rewrite first_occurrences_columns. f_equal. set_solver.
    + apply NoDup_lookup_first_occurrences.
  - intros f Hf.
    assert (model_field_of f ∈ (list_to_set (model_field_of <$> first_occurrences [] fields) : gset string)) as Hcol.
    { rewrite first_occurrences_columns. cbn.
      rewrite elem_of_difference, elem_of_list_to_set.
      split; [by apply list_elem_of_fmap_2|set_solver]. }
    apply elem_of_list_to_set, list_elem_of_fmap in Hcol as (g & Hgf & Hg).
    exists (lookup_field_of g). split.
    + split; [apply Hdom; by exists g|].
      exists g. split_and!; [by eapply first_occurrences_subseteq|done..].
    + intros k' [(g' & Hg' & ->)%Hdom (g'' & _ & Hcol'' & Heq)].
      f_equal. apply lookup_field_inj in Heq.
      apply (NoDup_fmap_eq model_field_of (first_occurrences [] fields));
        [apply NoDup_first_occurrences|done..|congruence].
Qed.

(** ** The dict comprehension of [_export_get_admin_filter] *)

Lemma last_cons_cons {A} (x y : A) l : last (x :: y :: l) = last (y :: l).
Proof. reflexivity. Qed.

(** The values of one key: the last one stays, under a permitted key. *)
Lemma lookup_values_fold (list_filter : list string) key values
    (admin_filter : gmap string value) k :
  foldl (λ admin_filter v,
           if decide (key ∈ list_filter)
           then <[key := VStr v]> admin_filter else admin_filter)
        admin_filter values !! k
  = if decide (k = key ∧ key ∈ list_filter)
    then match last values with
         | Some v => Some (VStr v)
         | None => admin_filter !! k
         end
    else admin_filter !! k.
Proof.
  revert admin_filter. induction values as [|v values IH]; intros admin_filter.
  { cbn. by case_decide. }
  cbn [foldl]. rewrite IH. clear IH.
  destruct (decide (k = key ∧ key ∈ list_filter)) as [[-> Hin]|Hne].
  - rewrite decide_True by done.
    destruct values as [|w values]; [cbn; by rewrite lookup_insert_eq|].
    rewrite last_cons_cons.
    destruct (last (w :: values)) eqn:Hlast; [done|].
    by apply last_None in Hlast.
  - case_decide; [|done]. rewrite lookup_insert_ne; [done|].
    intros ->. by apply Hne.
Qed.

Lemma lookup_admin_filter_comprehension self request query_params k :
  admin_filter_comprehension self request query_params !! k
  = query_params !! k ≫= λ values,
      if decide (k ∈ get_list_filter self request)
      then VStr <$> last values else None.
Proof.
  unfold admin_filter_comprehension. revert k.
  apply (map_fold_weak_ind (λ r (m : gmap string (list string)), ∀ k,
    r !! k = m !! k ≫= λ values,
      if decide (k ∈ get_list_filter self request)
      then VStr <$> last values else None)).
  { intros k. by rewrite !lookup_empty. }
  intros key values m r Hfresh IH k.
  rewrite lookup_values_fold.
  destruct (decide (k = key)) as [->|Hk].
  - rewrite lookup_insert_eq. cbn. rewrite IH, Hfresh. cbn.
    destruct (decide (key ∈ get_list_filter self request)).
    + rewrite decide_True by done. by destruct (last values).
    + by rewrite decide_False by tauto.
  - rewrite lookup_insert_ne by done. rewrite decide_False by tauto.
    apply IH.
Qed.

(** The resolver raises for an empty search field and for nothing else;
    the query parameters play no part in that. *)
Lemma admin_filter_returns self request :
  Forall (λ f, f ≠ "") (get_search_fields self request) →
  ∃ search_kwargs,
    _export_get_admin_filter self request
      = Ok (<["search" := VDict search_kwargs]>
              (admin_filter_comprehension self request
                 (delete "q" (GET request)))).
Proof.
  intros Hne. unfold _export_get_admin_filter, _export_get_search_filter.
  rewrite search_filter_loop_first by done. cbn. eauto.
Qed.

Lemma admin_filter_raises self request :
  "" ∈ get_search_fields self request →
  _export_get_admin_filter self request = Raise IndexError.
Proof.
  intros Hin. unfold _export_get_admin_filter, _export_get_search_filter.
  by rewrite search_filter_loop_empty_field.
Qed.

Lemma lookup_admin_filter self request admin_filter key :
  _export_get_admin_filter self request = Ok admin_filter →
  ¬ reserved key →
  admin_filter !! key
  = GET request !! key ≫= λ values,
      if decide (key ∈ get_list_filter self request)
      then VStr <$> last values else None.
Proof.
  unfold _export_get_admin_filter, reserved. intros Hres Hkey.
  destruct (_export_get_search_filter _ _ _) as [kw|e]; [|done].
  cbn in Hres. injection Hres as <-.
  rewrite lookup_insert_ne by (intros <-; tauto).
  rewrite lookup_admin_filter_comprehension.
  rewrite lookup_delete_ne by (intros <-; tauto). done.
Qed.

(** What becomes of the two reserved names. *)
Lemma lookup_admin_filter_search self request admin_filter :
  _export_get_admin_filter self request = Ok admin_filter →
  ∃ search_kwargs,
    _export_get_search_filter self request (default [] (GET request !! "q"))
      = Ok search_kwargs
    ∧ admin_filter !! "search" = Some (VDict search_kwargs).
Proof.
  unfold _export_get_admin_filter. intros Hres.
  destruct (_export_get_search_filter _ _ _) as [kw|e]; [|done].
  cbn in Hres. injection Hres as <-. exists kw.
  by rewrite lookup_insert_eq.
Qed.

Lemma lookup_admin_filter_q self request admin_filter :
  _export_get_admin_filter self request = Ok admin_filter →
  admin_filter !! "q" = None.
Proof.
  unfold _export_get_admin_filter. intros Hres.
  destruct (_export_get_search_filter _ _ _) as [kw|e]; [|done].
  cbn in Hres. injection Hres as <-.
  rewrite lookup_insert_ne by done.
  rewrite lookup_admin_filter_comprehension. by rewrite lookup_delete_eq.
Qed.

(** ** The search specification of the admin resolver *)

Example admin_filter_search_term :
  _export_get_admin_filter
    {| get_search_fields := λ _, ["^name"; "=name"; "@bio"];
       get_list_filter := λ _, [] |}
    {| GET := {[ "q" := ["Art"; "ist"] ]}; user := 1 |}
  = Ok {[ "search" := VDict {[ "name__istartswith" := "Art";
                               "bio__search" := "Art" ]} ]}.
Proof. vm_compute. reflexivity. Qed.

(** C5: when every search field is a non-empty name, the resolver returns
    and its [search] entry is the search filter built from the values of
    [q]; in it every entry holds the one extracted term, the first value of
    [q] or the empty string when [q] is absent; the entries are the lookups
    of the first occurrence of each column; there are as many entries as
    distinct columns; and of all the lookups of the fields that normalize
    to one column, exactly one is an entry. *)
Theorem search_filter_one_entry_per_column (self : ModelAdmin)
    (request : WSGIRequest) :
  let fields := get_search_fields self request in
  let term := default "" (GET request !! "q" ≫= head) in
  Forall (λ f, f ≠ "") fields →
  ∃ search_kwargs admin_filter,
    _export_get_search_filter self request (default [] (GET request !! "q"))
      = Ok search_kwargs
    ∧ _export_get_admin_filter self request = Ok admin_filter
    ∧ admin_filter !! "search" = Some (VDict search_kwargs)
    ∧ (∀ k v, search_kwargs !! k = Some v → v = term)
    ∧ (∀ k, k ∈ dom search_kwargs ↔
         ∃ pre f post, fields = pre ++ (f :: post)
           ∧ (model_field_of f ∉ model_field_of <$> pre)
           ∧ k = lookup_field_of f)
    ∧ size search_kwargs
        = size (list_to_set (model_field_of <$> fields) : gset string)
    ∧ (∀ f, f ∈ fields →
         exists! k, k ∈ dom search_kwargs
               ∧ ∃ g, g ∈ fields ∧ model_field_of g = model_field_of f
                      ∧ k = lookup_field_of g).
Proof.
  intros fields term Hne.
  destruct (search_filter_entries self request
              (default [] (GET request !! "q")) Hne)
    as (kw & Hkw & Hterm & Hdom & Hsize & Hone).
  destruct (admin_filter_returns self request Hne) as [kw' Hres].
  destruct (lookup_admin_filter_search _ _ _ Hres) as (kw'' & Hkw'' & Hsearch).
  rewrite Hkw in Hkw''. injection Hkw'' as <-.
  exists kw. eexists. split_and!; [done|exact Hres|done| |done..].
  intros k v Hk. rewrite (Hterm k v Hk). unfold term.
  by destruct (GET request !! "q") as [[|??]|].
Qed.

Lemma search_filter_one_entry_per_column_witness :
  ∃ search_kwargs admin_filter,
    _export_get_admin_filter
      {| get_search_fields := λ _, ["^name"; "=name"; "@bio"];
         get_list_filter := λ _, [] |}
      {| GET := {[ "q" := ["Art"; "ist"] ]}; user := 1 |} = Ok admin_filter
    ∧ admin_filter !! "search" = Some (VDict search_kwargs)
    ∧ size search_kwargs = 2.
Proof.
  destruct (search_filter_one_entry_per_column
              {| get_search_fields := λ _, ["^name"; "=name"; "@bio"];
                 get_list_filter := λ _, [] |}
              {| GET := {[ "q" := ["Art"; "ist"] ]}; user := 1 |})
    as (kw & admin_filter & _ & Hres & Hsearch & _ & _ & Hsize & _).
  { cbn. repeat constructor; discriminate. }
  exists kw, admin_filter. split_and!; [exact Hres|exact Hsearch|].
  rewrite Hsize. vm_compute. reflexivity.
Defined.

(** ** The filter entries of the admin resolver *)

Example admin_filter_in_value :
  _export_get_admin_filter
    {| get_search_fields := λ _, ["name"];
       get_list_filter := λ _, ["name"; "name__in"] |}
    {| GET := {[ "name__in" := ["Some,Artist"] ]}; user := 1 |}
  = Ok {[ "name__in" := VStr "Some,Artist";
          "search" := VDict {[ "name__icontains" := "" ]} ]}.
Proof. vm_compute. reflexivity. Qed.

(** Keys are compared as they are written: [Name] is not [name]; a key
    that is not permitted leaves no entry and raises nothing. *)
Example admin_filter_case_sensitive :
  _export_get_admin_filter
    {| get_search_fields := λ _, [];
       get_list_filter := λ _, ["name"] |}
    {| GET := {[ "Name" := ["Artist"]; "page" := ["2"] ]}; user := 1 |}
  = Ok {[ "search" := VDict ∅ ]}.
Proof. vm_compute. reflexivity. Qed.

Example admin_filter_many_values :
  _export_get_admin_filter
    {| get_search_fields := λ _, [];
       get_list_filter := λ _, ["name"] |}
    {| GET := {[ "name" := ["first"; "second"; "third"] ]}; user := 1 |}
  = Ok {[ "name" := VStr "third"; "search" := VDict ∅ ]}.
Proof. vm_compute. reflexivity. Qed.

(** The entry [search] belongs to the resolver: a query parameter of that
    name never reaches the output, permitted or not, and the key is there
    whether it is permitted or not. *)
Lemma admin_filter_search_key_overwritten :
  let request := {| GET := {[ "search" := ["x"] ]}; user := 1 |} in
  let permitting := {| get_search_fields := λ _, ["name"];
                       get_list_filter := λ _, ["search"] |} in
  let refusing := {| get_search_fields := λ _, ["name"];
                     get_list_filter := λ _, [] |} in
  ¬ ("search" = "q" ∨ "search" = "ordering")
  ∧ "search" ∈ get_list_filter permitting request
  ∧ ("search" ∉ get_list_filter refusing request)
  ∧ _export_get_admin_filter permitting request
      = Ok {[ "search" := VDict {[ "name__icontains" := "" ]} ]}
  ∧ _export_get_admin_filter refusing request
      = Ok {[ "search" := VDict {[ "name__icontains" := "" ]} ]}.
Proof.
  cbn zeta. split_and!.
  - intros [?|?]; discriminate.
  - cbn. apply list_elem_of_here.
  - cbn. apply not_elem_of_nil.
  - vm_compute. reflexivity.
  - vm_compute. reflexivity.
Qed.

(** C6, as the code has it: a key of the query parameters other than [q]
    (popped before the filter is built) and [search] (assigned after it)
    has an entry in the output exactly when it is, as written, one of the
    permitted filter fields; the entry is its value as given, unsplit; a
    key that is not permitted has no entry, and the resolver returns all
    the same. *)
Theorem admin_filter_permitted_keys (self : ModelAdmin) (request : WSGIRequest)
    (key : string) (values : list string) (v : string) :
  Forall (λ f, f ≠ "") (get_search_fields self request) →
  ¬ reserved key →
  GET request !! key = Some values →
  last values = Some v →
  ∃ admin_filter,
    _export_get_admin_filter self request = Ok admin_filter
    ∧ (is_Some (admin_filter !! key) ↔ key ∈ get_list_filter self request)
    ∧ (key ∈ get_list_filter self request →
       admin_filter !! key = Some (VStr v))
    ∧ (key ∉ get_list_filter self request → admin_filter !! key = None).
Proof.
  intros Hne Hkey Hget Hlast.
  destruct (admin_filter_returns self request Hne) as [kw Hres].
  eexists. split; [exact Hres|].
  rewrite (lookup_admin_filter _ _ _ _ Hres Hkey), Hget. cbn.
  destruct (decide (key ∈ get_list_filter self request)) as [Hin|Hin].
  - rewrite Hlast. cbn. split_and!; [|done..]. split; [done|by eexists].
  - split_and!; [|done..]. split; [by intros [? ?]|done].
Qed.

Lemma admin_filter_permitted_keys_witness :
  ∃ admin_filter,
    _export_get_admin_filter
      {| get_search_fields := λ _, ["name"];
         get_list_filter := λ _, ["name"; "name__in"] |}
      {| GET := {[ "name__in" := ["Some,Artist"] ]}; user := 1 |}
    = Ok admin_filter
    ∧ admin_filter !! "name__in" = Some (VStr "Some,Artist").
Proof.
  destruct (admin_filter_permitted_keys
              {| get_search_fields := λ _, ["name"];
                 get_list_filter := λ _, ["name"; "name__in"] |}
              {| GET := {[ "name__in" := ["Some,Artist"] ]}; user := 1 |}
              "name__in" ["Some,Artist"] "Some,Artist")
    as (admin_filter & Hres & _ & Hin & _).
  - cbn. repeat constructor; discriminate.
  - intros [?|?]; discriminate.
  - vm_compute. reflexivity.
  - reflexivity.
  - exists admin_filter. split; [exact Hres|]. apply Hin.
    cbn. apply list_elem_of_further, list_elem_of_here.
Defined.

(** A permitted key [q] with two values gets no entry at all: it is popped
    for the search term, which is its first value. *)
Lemma admin_filter_q_key_popped :
  let request := {| GET := {[ "q" := ["first"; "second"] ]}; user := 1 |} in
  let self := {| get_search_fields := λ _, ["name"];
                 get_list_filter := λ _, ["q"] |} in
  "q" ∈ get_list_filter self request
  ∧ GET request !! "q" = Some ["first"; "second"]
  ∧ ∃ admin_filter,
      _export_get_admin_filter self request = Ok admin_filter
      ∧ admin_filter !! "q" = None
      ∧ admin_filter !! "q" ≠ Some (VStr "second")
      ∧ admin_filter !! "search"
          = Some (VDict {[ "name__icontains" := "first" ]}).
Proof.
  cbn zeta. split_and!.
  - cbn. apply list_elem_of_here.
  - vm_compute. reflexivity.
  - eexists. split; [vm_compute; reflexivity|].
    split_and!; [vm_compute; reflexivity|vm_compute; discriminate|].
    vm_compute. reflexivity.
Qed.

(** C9, as the code has it: a permitted filter key other than [q] and
    [search] that comes with several values is mapped to the last of them:
    every value is stored under the key in turn, each over the one
    before. *)
Theorem admin_filter_last_value (self : ModelAdmin) (request : WSGIRequest)
    (key : string) (earlier : list string) (final : string) :
  Forall (λ f, f ≠ "") (get_search_fields self request) →
  ¬ reserved key →
  key ∈ get_list_filter self request →
  GET request !! key = Some (earlier ++ [final]) →
  ∃ admin_filter,
    _export_get_admin_filter self request = Ok admin_filter
    ∧ admin_filter !! key = Some (VStr final).
Proof.
  intros Hne Hkey Hin Hget.
  destruct (admin_filter_returns self request Hne) as [kw Hres].
  eexists. split; [exact Hres|].
  rewrite (lookup_admin_filter _ _ _ _ Hres Hkey), Hget. cbn.
  rewrite decide_True by done. by rewrite last_snoc.
Qed.

Lemma admin_filter_last_value_witness :
  ∃ admin_filter,
    _export_get_admin_filter
      {| get_search_fields := λ _, [];
         get_list_filter := λ _, ["name"] |}
      {| GET := {[ "name" := ["first"; "second"; "third"] ]}; user := 1 |}
    = Ok admin_filter
    ∧ admin_filter !! "name" = Some (VStr "third").
Proof.
  apply (admin_filter_last_value
           {| get_search_fields := λ _, [];
              get_list_filter := λ _, ["name"] |}
           {| GET := {[ "name" := ["first"; "second"; "third"] ]}; user := 1 |}
           "name" ["first"; "second"] "third").
  - cbn. constructor.
  - intros [?|?]; discriminate.
  - cbn. apply list_elem_of_here.
  - vm_compute. reflexivity.
Defined.

(** ** Creating a job *)

Lemma objects_create_spec resource_path resource_kwargs file_format_path
    created_by db :
  let '(job, db') := ExportJob_objects_create resource_path resource_kwargs
                       file_format_path created_by db in
  jobs db !! id job = None
  ∧ jobs db' !! id job = Some job
  ∧ (∀ pk, pk ≠ id job → jobs db' !! pk = jobs db !! pk)
  ∧ queue db' = queue db ++ [id job]
  ∧ job = {| id := fresh (dom (jobs db));
             export_status := CREATED;
             resource_path := resource_path;
             resource_kwargs := resource_kwargs;
             file_format_path := file_format_path;
             created_by := created_by |}.
Proof.
  cbn. split_and!; [|by rewrite lookup_insert_eq| |done..].
  - apply not_elem_of_dom, is_fresh.
  - intros pk Hpk. by rewrite lookup_insert_ne.
Qed.

Example create_export_job_first :
  create_export_job {| GET := ∅; user := 1 |}
    {| class_path := "test_project.fake_app.resources.ArtistResource" |}
    ∅
    {| __module__ := "import_export.formats.base_formats"; __name__ := "CSV" |}
    {| jobs := ∅; queue := [] |}
  = (let job := {| id := 0;
                   export_status := CREATED;
                   resource_path :=
                     "test_project.fake_app.resources.ArtistResource";
                   resource_kwargs := ∅;
                   file_format_path := "import_export.formats.base_formats.CSV";
                   created_by := None |} in
     (job, {| jobs := {[ 0 := job ]}; queue := [0] |})).
Proof. vm_compute. reflexivity. Qed.




(** ** Looking a job up *)

(** The admin's lookup does not read [created_by]: user 1 is handed the job
    that user 2 owns. *)
Lemma get_export_job_of_another_owner :
  let job := {| id := 7;
                export_status := EXPORTED;
                resource_path := "test_project.fake_app.resources.ArtistResource";
                resource_kwargs := ∅;
                file_format_path := "import_export.formats.base_formats.CSV";
                created_by := Some 2 |} in
  let db := {| jobs := {[ 7 := job ]}; queue := [] |} in
  let request := {| GET := ∅; user := 1 |} in
  created_by job = Some 2
  ∧ user request ≠ 2
  ∧ get_export_job request 7 db = Ok job
  ∧ get_export_job request 7 db ≠ Raise Http404.
Proof. vm_compute. split_and!; [done|lia|done|discriminate]. Qed.

(** C2, as the code has it: [get_export_job], the admin's lookup, raises
    [Http404] exactly when no job has the id, and returns the job whoever
    created it.  Ownership decides only in the API's [getStatus]: it fails
    with the one [NotFoundError] both when no job has the id and when the
    job's [created_by] is set and is not the requester, and returns the job
    when [created_by] is unset or is the requester. *)
Theorem job_lookup_visibility (request : WSGIRequest) (job_id : nat)
    (db : database) :
  (get_export_job request job_id db = Raise Http404
     ↔ jobs db !! job_id = None)
  ∧ (∀ job, jobs db !! job_id = Some job →
       get_export_job request job_id db = Ok job)
  ∧ (Api.getStatus db job_id (user request) = Api.Failure Api.NotFoundError
       ↔ jobs db !! job_id = None
         ∨ ∃ job owner, jobs db !! job_id = Some job
             ∧ created_by job = Some owner ∧ owner ≠ user request)
  ∧ (∀ job, jobs db !! job_id = Some job →
       created_by job = None ∨ created_by job = Some (user request) →
       Api.getStatus db job_id (user request) = Api.Success job)
  ∧ (∀ e, Api.getStatus db job_id (user request) = Api.Failure e →
       e = Api.NotFoundError).
Proof.
  unfold get_export_job, get_object_or_404, Api.getStatus, Api.visible.
  destruct (jobs db !! job_id) as [job|] eqn:Hjob.
  - split_and!.
    + split; discriminate.
    + by intros ? [= ->].
    + destruct (created_by job) as [owner|] eqn:Howner.
      * case_bool_decide as Hreq.
        -- split; [discriminate|].
           intros [?|(job' & owner' & [= <-] & Ho & Hne)]; [done|].
           congruence.
        -- split; [|done]. intros _. right. by exists job, owner.
      * split; [discriminate|].
        intros [?|(job' & owner' & [= <-] & Ho & Hne)]; [done|congruence].
    + intros ? [= <-] [->| ->]; [done|]. by rewrite bool_decide_eq_true_2.
    + intros e. destruct (created_by job); [case_bool_decide|]; congruence.
  - split_and!; [done|done| |done|congruence].
    split; [by left|done].
Qed.

Lemma job_lookup_visibility_witness :
  let job := {| id := 7;
                export_status := EXPORTED;
                resource_path := "test_project.fake_app.resources.ArtistResource";
                resource_kwargs := ∅;
                file_format_path := "import_export.formats.base_formats.CSV";
                created_by := Some 2 |} in
  let db := {| jobs := {[ 7 := job ]}; queue := [] |} in
  get_export_job {| GET := ∅; user := 1 |} 7 db = Ok job
  ∧ Api.getStatus db 7 1 = Api.Failure Api.NotFoundError
  ∧ Api.getStatus db 8 1 = Api.Failure Api.NotFoundError
  ∧ Api.getStatus db 7 2 = Api.Success job.
Proof.
  intros job db. split_and!.
  - apply (job_lookup_visibility {| GET := ∅; user := 1 |} 7 db).
    vm_compute. reflexivity.
  - apply (job_lookup_visibility {| GET := ∅; user := 1 |} 7 db).
    right. exists job, 2. split_and!; [vm_compute; reflexivity|reflexivity|].
    cbn. lia.
  - apply (job_lookup_visibility {| GET := ∅; user := 1 |} 8 db).
    left. vm_compute. reflexivity.
  - apply (job_lookup_visibility {| GET := ∅; user := 2 |} 7 db).
    + vm_compute. reflexivity.
    + right. reflexivity.
Defined.

(** ** Cancelling a job *)

Example cancel_exported_message :
  Api.invalid_state_message 7 EXPORTED Api.cancellable
  = "ExportJob with id 7 has incorrect status: `EXPORTED`. Expected statuses: ['CREATED', 'EXPORTING']".
Proof. vm_compute. reflexivity. Qed.

Lemma cancel_success db job_id requester job :
  Api.getStatus db job_id requester = Api.Success job →
  export_status job ∈ Api.cancellable →
  Api.cancel db job_id requester
    = Api.Success (Api.set_status job CANCELLED,
                   {| jobs := <[job_id := Api.set_status job CANCELLED]> (jobs db);
                      queue := queue db |}).
Proof.
  intros Hget Hin. unfold Api.cancel. rewrite Hget.
  by rewrite decide_True.
Qed.

Lemma cancel_invalid_state db job_id requester job :
  Api.getStatus db job_id requester = Api.Success job →
  export_status job ∉ Api.cancellable →
  Api.cancel db job_id requester
    = Api.Failure (Api.InvalidStateError job_id (export_status job)
                     Api.cancellable).
Proof.
  intros Hget Hin. unfold Api.cancel. rewrite Hget.
  by rewrite decide_False.
Qed.

Lemma getStatus_after_cancel db job_id requester job :
  Api.getStatus db job_id requester = Api.Success job →
  Api.getStatus
    {| jobs := <[job_id := Api.set_status job CANCELLED]> (jobs db);
       queue := queue db |} job_id requester
  = Api.Success (Api.set_status job CANCELLED).
Proof.
  unfold Api.getStatus. cbn. rewrite lookup_insert_eq.
  destruct (jobs db !! job_id) as [job'|]; [|done].
  unfold Api.visible. cbn.
  destruct (created_by job') as [owner|] eqn:Ho.
  - case_bool_decide; [|done]. intros [= <-]. rewrite Ho.
    by rewrite bool_decide_eq_true_2.
  - intros [= <-]. by rewrite Ho.
Qed.

(** C1: for a job the requester can see, cancel succeeds exactly when the
    job's status is [CREATED] or [EXPORTING]; it then saves the job with
    status [CANCELLED] and touches nothing else.  From any other status,
    [CANCELLED] among them, it fails with the invalid-state error that
    carries the job's current status and the allowed set [CREATED],
    [EXPORTING], whose message spells both out; so a second cancel after a
    successful one fails with that error naming [CANCELLED]. *)
Theorem cancel_iff_cancellable (db : database) (job_id requester : nat)
    (job : ExportJob) :
  Api.getStatus db job_id requester = Api.Success job →
  ((∃ job' db', Api.cancel db job_id requester = Api.Success (job', db'))
     ↔ export_status job = CREATED ∨ export_status job = EXPORTING)
  ∧ (∀ job' db',
       Api.cancel db job_id requester = Api.Success (job', db') →
       export_status job' = CANCELLED
       ∧ jobs db' !! job_id = Some job'
       ∧ job' = Api.set_status job CANCELLED
       ∧ (∀ pk, pk ≠ job_id → jobs db' !! pk = jobs db !! pk)
       ∧ queue db' = queue db
       ∧ Api.cancel db' job_id requester
           = Api.Failure (Api.InvalidStateError job_id CANCELLED
                            [CREATED; EXPORTING]))
  ∧ (export_status job ≠ CREATED → export_status job ≠ EXPORTING →
       Api.cancel db job_id requester
         = Api.Failure (Api.InvalidStateError job_id (export_status job)
                          [CREATED; EXPORTING])
       ∧ Api.cancel_view job_id {| GET := ∅; user := requester |} db
           = ({| Api.status_code := 400;
                 Api.data :=
                   Api.ErrorList
                     [Api.invalid_state_message job_id (export_status job)
                        [CREATED; EXPORTING]] |}, db)
       ∧ Api.invalid_state_message job_id (export_status job)
           [CREATED; EXPORTING]
           = "ExportJob with id " +:+ pretty job_id
               +:+ " has incorrect status: `"
               +:+ Api.status_value (export_status job)
               +:+ "`. Expected statuses: ['CREATED', 'EXPORTING']").
Proof.
  intros Hget.
  assert (Hmem : export_status job ∈ Api.cancellable
                 ↔ export_status job = CREATED ∨ export_status job = EXPORTING).
  { unfold Api.cancellable. rewrite !elem_of_cons, elem_of_nil. tauto. }
  split_and!.
  - rewrite <- Hmem. split.
    + intros (job' & db' & Hc).
      destruct (decide (export_status job ∈ Api.cancellable)); [done|].
      rewrite (cancel_invalid_state _ _ _ _ Hget) in Hc by done. done.
    + intros Hin. rewrite (cancel_success _ _ _ _ Hget Hin). eauto.
  - intros job' db' Hc.
    destruct (decide (export_status job ∈ Api.cancellable)) as [Hin|Hin].
    + rewrite (cancel_success _ _ _ _ Hget Hin) in Hc.
      injection Hc as <- <-. cbn.
      split_and!; [done|by rewrite lookup_insert_eq|done| |done|].
      * intros pk Hpk. by rewrite lookup_insert_ne.
      * rewrite (cancel_invalid_state _ _ _ (Api.set_status job CANCELLED)).
        -- done.
        -- by apply getStatus_after_cancel.
        -- cbn. unfold Api.cancellable. rewrite !not_elem_of_cons.
           split_and!; [done..|apply not_elem_of_nil].
    + rewrite (cancel_invalid_state _ _ _ _ Hget Hin) in Hc. done.
  - intros H1 H2.
    assert (Hc : Api.cancel db job_id requester
                 = Api.Failure (Api.InvalidStateError job_id
                                  (export_status job) [CREATED; EXPORTING])).
    { apply (cancel_invalid_state _ _ _ _ Hget). rewrite Hmem. tauto. }
    split_and!; [done| |reflexivity].
    unfold Api.cancel_view. cbn [user]. by rewrite Hc.
Qed.

Lemma cancel_iff_cancellable_witness :
  let job st := {| id := 7;
                   export_status := st;
                   resource_path :=
                     "test_project.fake_app.resources.ArtistResource";
                   resource_kwargs := ∅;
                   file_format_path := "import_export.formats.base_formats.CSV";
                   created_by := None |} in
  let db st := {| jobs := {[ 7 := job st ]}; queue := [] |} in
  (∃ job' db', Api.cancel (db EXPORTING) 7 1 = Api.Success (job', db'))
  ∧ Api.cancel (db CANCELLED) 7 1
      = Api.Failure (Api.InvalidStateError 7 CANCELLED [CREATED; EXPORTING]).
Proof.
  intros job db. split.
  - apply (cancel_iff_cancellable (db EXPORTING) 7 1 (job EXPORTING)).
    + vm_compute. reflexivity.
    + right. reflexivity.
  - apply (cancel_iff_cancellable (db CANCELLED) 7 1 (job CANCELLED)).
    + vm_compute. reflexivity.
    + discriminate.
    + discriminate.
Defined.

(** ** Resolving the ordering *)

Lemma str_split_nonempty sep s : Api.str_split sep s ≠ [].
Proof.
  destruct s as [|c s]; cbn; [done|].
  case_decide; [done|]. by destruct (Api.str_split sep s).
Qed.

Lemma str_join_cons_char sep c t ts :
  Api.str_join sep (String c t :: ts) = String c (Api.str_join sep (t :: ts)).
Proof. by destruct ts. Qed.

Lemma str_join_cons_cons sep p q l :
  Api.str_join sep (p :: q :: l) = p +:+ sep +:+ Api.str_join sep (q :: l).
Proof. reflexivity. Qed.

Lemma str_join_split sep s :
  Api.str_join (String sep "") (Api.str_split sep s) = s.
Proof.
  induction s as [|c s IH]; cbn [Api.str_split]; [done|].
  pose proof (str_split_nonempty sep s) as Hne.
  destruct (Api.str_split sep s) as [|t ts] eqn:Hsplit; [done|].
  case_decide as Hc.
  - subst c. rewrite str_join_cons_cons. by rewrite IH.
  - rewrite str_join_cons_char. by rewrite IH.
Qed.

Lemma str_split_no_sep sep s :
  Forall (λ t, str_mem sep t = false) (Api.str_split sep s).
Proof.
  induction s as [|c s IH]; cbn [Api.str_split]; [by repeat constructor|].
  case_decide as Hc; [by constructor|].
  destruct (Api.str_split sep s) as [|t ts].
  - repeat constructor. cbn. by rewrite bool_decide_eq_false_2.
  - apply Forall_cons in IH as [Ht Hts]. constructor; [|done].
    cbn. by rewrite bool_decide_eq_false_2.
Qed.

Lemma resolve_ordering_valid orderable value :
  Forall (λ t, Api.ordering_field t ∈ orderable) (Api.str_split "," value) →
  Api.resolve_ordering orderable value
    = Api.Success (Api.str_split "," value).
Proof.
  intros Hall. unfold Api.resolve_ordering. cbn zeta.
  destruct (list_find _ _) as [[i bad]|] eqn:Hfind; [|done].
  apply list_find_Some in Hfind as (Hi & Hbad & _).
  rewrite Forall_lookup in Hall. by specialize (Hall _ _ Hi).
Qed.

Lemma resolve_ordering_invalid orderable value :
  ¬ Forall (λ t, Api.ordering_field t ∈ orderable) (Api.str_split "," value) →
  ∃ bad, bad ∈ Api.str_split "," value
    ∧ (Api.ordering_field bad ∉ orderable)
    ∧ Api.resolve_ordering orderable value
        = Api.Failure (Api.ValidationError
                         {[ "ordering" := [Api.ordering_message bad] ]}).
Proof.
  intros Hall. unfold Api.resolve_ordering. cbn zeta.
  destruct (list_find _ _) as [[i bad]|] eqn:Hfind.
  - apply list_find_Some in Hfind as (Hi & Hbad & _).
    exists bad. split_and!; [|done..]. by eapply list_elem_of_lookup_2.
  - exfalso. apply Hall. apply list_find_None in Hfind.
    eapply Forall_impl; [exact Hfind|]. intros t Ht. cbn in Ht.
    by apply dec_stable.
Qed.


Lemma lookup_filter_errors r query_params key :
  Api.filter_errors r query_params !! key
  = match Api.filterset r !! key, Api.remaining_params query_params !! key with
    | Some t, Some values =>
        match last values with
        | Some v => if Api.coercible t v then None
                    else Some [Api.coercion_message t]
        | None => None
        end
    | _, _ => None
    end.
Proof.
  unfold Api.filter_errors. rewrite lookup_merge.
  by destruct (Api.filterset r !! key), (Api.remaining_params query_params !! key).
Qed.

Lemma lookup_filter_errors_ordering r query_params :
  Api.filter_errors r query_params !! "ordering" = None.
Proof.
  rewrite lookup_filter_errors. unfold Api.remaining_params.
  rewrite lookup_delete_eq. by destruct (Api.filterset r !! "ordering").
Qed.

Example resolve_ordering_many :
  Api.resolve_ordering ["id"; "name"] "name,-id" = Api.Success ["name"; "-id"].
Proof. vm_compute. reflexivity. Qed.

Example resolve_ordering_bogus :
  Api.resolve_ordering ["id"; "name"] "bogus_field"
  = Api.Failure (Api.ValidationError
      {[ "ordering" := ["Cannot resolve keyword 'bogus_field' into field."] ]}).
Proof. vm_compute. reflexivity. Qed.

Lemma resolve_ordering_param r query_params values value :
  query_params !! "ordering" = Some values →
  last values = Some value →
  Api.resolve r query_params
  = match Api.resolve_ordering (Api.orderable_fields r) value with
    | Api.Failure (Api.ValidationError ordering_errors) =>
        Api.Failure (Api.ValidationError
                       (ordering_errors ∪ Api.filter_errors r query_params))
    | Api.Failure e => Api.Failure e
    | Api.Success ordering =>
        if decide (Api.filter_errors r query_params = ∅)
        then Api.Success
               {[ "filter_kwargs" := VDict (Api.filter_kwargs r query_params);
                  "ordering" := VList ordering ]}
        else Api.Failure (Api.ValidationError
                            (Api.filter_errors r query_params))
    end.
Proof. intros Hq Hlast. unfold Api.resolve. by rewrite Hq; cbn; rewrite Hlast. Qed.

(** C7: the value of [ordering] is split on commas into its tokens, in
    order: joined with commas they give the value back and none holds a
    comma; each may carry a leading [-].  When every token names an
    orderable field (and no filter value is refused) the job is created
    with exactly these tokens as its ordering; when some token does not,
    the request is refused with status 400 and a validation message under
    [ordering] that quotes an offending token, and the database is left as
    it was. *)
Theorem ordering_resolution (r : Api.Resource) (file_format : FormatType)
    (request : WSGIRequest) (db : database)
    (values : list string) (value : string) :
  GET request !! "ordering" = Some values →
  last values = Some value →
  let tokens := Api.str_split "," value in
  let resolves token :=
    removeprefix token "-" ∈ Api.orderable_fields r in
  Api.str_join "," tokens = value
  ∧ Forall (λ token, str_mem "," token = false) tokens
  ∧ (Forall resolves tokens →
     Api.filter_errors r (GET request) = ∅ →
     ∃ job db',
       Api.start r file_format request db
         = ({| Api.status_code := 201; Api.data := Api.JobData job |}, db')
       ∧ jobs db' !! id job = Some job
       ∧ resource_kwargs job !! "ordering" = Some (VList tokens))
  ∧ (¬ Forall resolves tokens →
     ∃ bad errors,
       bad ∈ tokens
       ∧ ¬ resolves bad
       ∧ Api.start r file_format request db
           = ({| Api.status_code := 400; Api.data := Api.ErrorDict errors |},
              db)
       ∧ errors !! "ordering"
           = Some ["Cannot resolve keyword '" +:+ bad +:+ "' into field."]).
Proof.
  intros Hq Hlast tokens resolves. split_and!.
  - apply (str_join_split ","%char).
  - apply str_split_no_sep.
  - intros Hall Hfilters.
    pose proof (objects_create_spec (class_path (Api.resource_class r))
                  {[ "filter_kwargs" :=
                       VDict (Api.filter_kwargs r (GET request));
                     "ordering" := VList tokens ]}
                  (__module__ file_format +:+ "." +:+ __name__ file_format)
                  (Some (user request)) db) as Hspec.
    unfold Api.start. rewrite (resolve_ordering_param _ _ _ _ Hq Hlast).
    rewrite resolve_ordering_valid by done.
    rewrite decide_True by done. fold tokens.
    destruct (ExportJob_objects_create _ _ _ _ _) as [job db'].
    destruct Hspec as (_ & Hsaved & _ & _ & Hjob).
    exists job, db'. split_and!; [done..|].
    rewrite Hjob. cbn. rewrite lookup_insert_ne by done.
    by rewrite lookup_singleton_eq.
  - intros Hall.
    destruct (resolve_ordering_invalid _ _ Hall) as (bad & Hin & Hbad & Hres).
    exists bad, ({[ "ordering" := [Api.ordering_message bad] ]}
                   ∪ Api.filter_errors r (GET request)).
    split_and!; [done..| |].
    + unfold Api.start. rewrite (resolve_ordering_param _ _ _ _ Hq Hlast).
      by rewrite Hres.
    + apply lookup_union_Some_l. by rewrite lookup_singleton_eq.
Qed.

Lemma ordering_resolution_witness :
  let r := {| Api.resource_class :=
                {| class_path :=
                     "test_project.fake_app.resources.ArtistResource" |};
              Api.orderable_fields := ["id"; "name"];
              Api.filterset := {[ "id" := Api.IntegerField;
                                  "name" := Api.CharField ]} |} in
  let csv := {| __module__ := "import_export.formats.base_formats";
                __name__ := "CSV" |} in
  let db := {| jobs := ∅; queue := [] |} in
  (∃ job db',
     Api.start r csv {| GET := {[ "ordering" := ["name,-id"] ]}; user := 1 |} db
       = ({| Api.status_code := 201; Api.data := Api.JobData job |}, db')
     ∧ resource_kwargs job !! "ordering" = Some (VList ["name"; "-id"]))
  ∧ (∃ bad errors,
       Api.start r csv
         {| GET := {[ "ordering" := ["invalid_id"] ]}; user := 1 |} db
         = ({| Api.status_code := 400; Api.data := Api.ErrorDict errors |}, db)
       ∧ errors !! "ordering"
           = Some ["Cannot resolve keyword '" +:+ bad +:+ "' into field."]).
Proof.
  intros r csv db. split.
  - destruct (ordering_resolution r csv
                {| GET := {[ "ordering" := ["name,-id"] ]}; user := 1 |} db
                ["name,-id"] "name,-id")
      as (_ & _ & Hvalid & _); [vm_compute; reflexivity|reflexivity|].
    destruct Hvalid as (job & db' & Hstart & _ & Hordering).
    + vm_compute. repeat constructor.
    + vm_compute. reflexivity.
    + exists job, db'. split; [exact Hstart|exact Hordering].
  - destruct (ordering_resolution r csv
                {| GET := {[ "ordering" := ["invalid_id"] ]}; user := 1 |} db
                ["invalid_id"] "invalid_id")
      as (_ & _ & _ & Hinvalid); [vm_compute; reflexivity|reflexivity|].
    destruct Hinvalid as (bad & errors & _ & _ & Hstart & Herrors).
    + intros Hall. apply Forall_cons in Hall as [Hall _].
      vm_compute in Hall. set_solver.
    + exists bad, errors. split; [exact Hstart|exact Herrors].
Defined.

(** ** Values that cannot be coerced *)

Example start_invalid_id :
  Api.start
    {| Api.resource_class :=
         {| class_path := "test_project.fake_app.resources.ArtistResource" |};
       Api.orderable_fields := ["id"; "name"];
       Api.filterset := {[ "id" := Api.IntegerField;
                           "name" := Api.CharField ]} |}
    {| __module__ := "import_export.formats.base_formats"; __name__ := "CSV" |}
    {| GET := {[ "id" := ["invalid_id"] ]}; user := 1 |}
    {| jobs := ∅; queue := [] |}
  = ({| Api.status_code := 400;
        Api.data := Api.ErrorDict {[ "id" := ["Enter a number."] ]} |},
     {| jobs := ∅; queue := [] |}).
Proof. vm_compute. reflexivity. Qed.






(** ** More on the search lookup of one field *)

Lemma lookup_name_inj o p : lookup_name o = lookup_name p → o = p.
Proof. by destruct o, p. Qed.

Lemma prefix_operator_char c :
  match prefix_operator c with
  | StartsWith => c = "^"%char
  | ExactMatch => c = "="%char
  | FullTextSearch => c = "@"%char
  | Contains => is_search_prefix c = false
  end.
Proof.
  unfold prefix_operator, is_search_prefix.
  repeat case_decide; done.
Qed.

(** X1: the key of a search entry can be read back: two search fields that
    give the same key are the same field. *)
Theorem construct_search_key_inj (f g k m m' : string) :
  _export_construct_search f = Ok (k, m) →
  _export_construct_search g = Ok (k, m') →
  f = g.
Proof.
  destruct f as [|c f]; [done|]. destruct g as [|d g]; [done|].
  rewrite !construct_search_cons. intros [= Hk _] [= Hk' _].
  rewrite <- Hk' in Hk. clear Hk'.
  pose proof (lookup_suffix_inj _ _ _ _ Hk) as Hcol.
  rewrite Hcol in Hk.
  apply (inj (String.app _)), (inj (String.app "__")), lookup_name_inj in Hk.
  pose proof (prefix_operator_char c) as Hc.
  pose proof (prefix_operator_char d) as Hd.
  rewrite Hk in Hc. cbn [strip_search_prefix] in Hcol.
  destruct (prefix_operator d); subst; [by f_equal..|].
  by rewrite Hc, Hd in Hcol.
Qed.

Lemma construct_search_key_inj_witness :
  "=name" = "=name".
Proof.
  apply (construct_search_key_inj "=name" "=name" "name__iexact" "name" "name");
    reflexivity.
Defined.

(** X2: a search field that is a prefix character and nothing else leaves an
    empty column, and these three are the only fields that do. *)
Theorem construct_search_empty_column (f k : string) :
  _export_construct_search f = Ok (k, "")
  ↔ (f = "^" ∧ k = "__istartswith")
    ∨ (f = "=" ∧ k = "__iexact")
    ∨ (f = "@" ∧ k = "__search").
Proof.
  split.
  - destruct f as [|c f]; [done|].
    rewrite construct_search_cons. cbn [strip_search_prefix].
    pose proof (prefix_operator_char c) as Hc.
    destruct (is_search_prefix c) eqn:Hpre; [|by intros [= _ ?]].
    intros [= Hk ->]. rewrite string_app_nil_l in Hk. subst k.
    destruct (prefix_operator c); subst; cbn; auto. congruence.
  - intros [[-> ->]|[[-> ->]|[-> ->]]]; reflexivity.
Qed.

(** ** More on the search filter *)

(** X3: the search filter fails exactly when a search field is the empty
    string, wherever it stands and whatever [q] holds, and then with
    [IndexError]. *)
Theorem search_filter_raises_iff (self : ModelAdmin) (request : WSGIRequest)
    (value : list string) :
  (_export_get_search_filter self request value = Raise IndexError
     ↔ "" ∈ get_search_fields self request)
  ∧ ((∃ search_kwargs,
        _export_get_search_filter self request value = Ok search_kwargs)
       ↔ "" ∉ get_search_fields self request)
  ∧ (∀ e, _export_get_search_filter self request value = Raise e →
       e = IndexError).
Proof.
  unfold _export_get_search_filter.
  destruct (decide ("" ∈ get_search_fields self request)) as [Hin|Hin].
  - rewrite (search_filter_loop_empty_field _ _ _ _ Hin).
    split_and!; [done| |congruence].
    split; [by intros [? ?]|done].
  - assert (Hne : Forall (λ f, f ≠ "") (get_search_fields self request)).
    { apply Forall_forall. by intros f Hf ->. }
    rewrite (search_filter_loop_first _ _ _ _ Hne).
    split_and!; [done| |done]. split; [done|eauto].
Qed.

Lemma first_occurrences_snoc used fields f :
  first_occurrences used (fields ++ [f])
  = first_occurrences used fields
      ++ (if decide (model_field_of f ∈ used ++ (model_field_of <$> fields))
          then [] else [f]).
Proof.
  revert used. induction fields as [|g fields IH]; intros used.
  - cbn. rewrite app_nil_r. by case_decide.
  - cbn [app first_occurrences fmap list_fmap].
    destruct (decide (model_field_of g ∈ used)) as [Hg|Hg].
    + rewrite IH. f_equal.
      apply decide_ext. rewrite !elem_of_app, elem_of_cons.
      split; [tauto|]. intros [?|[->|?]]; tauto.
    + rewrite IH. cbn [app]. do 2 f_equal.
      apply decide_ext.
      rewrite !elem_of_app, !elem_of_cons, elem_of_nil. tauto.
Qed.

(** X4: a field added at the end whose column an earlier field already has
    changes nothing. *)
Theorem search_filter_repeated_column (self self' : ModelAdmin)
    (request : WSGIRequest) (value : list string) (f g k k' m : string) :
  get_search_fields self' request = get_search_fields self request ++ [f] →
  g ∈ get_search_fields self request →
  _export_construct_search f = Ok (k, m) →
  _export_construct_search g = Ok (k', m) →
  _export_get_search_filter self' request value
    = _export_get_search_filter self request value.
Proof.
  intros Hfields Hg Hf Hg'. unfold _export_get_search_filter. rewrite Hfields.
  assert (Hfne : f ≠ "") by (by intros ->).
  assert (Hgne : g ≠ "") by (by intros ->).
  rewrite (construct_search_nonempty _ Hfne) in Hf.
  rewrite (construct_search_nonempty _ Hgne) in Hg'.
  injection Hf as _ Hm. injection Hg' as _ Hm'.
  destruct (decide ("" ∈ get_search_fields self request)) as [Hin|Hin].
  - rewrite !search_filter_loop_empty_field; [done..|].
    apply elem_of_app. by left.
  - assert (Hne : Forall (λ f, f ≠ "") (get_search_fields self request)).
    { apply Forall_forall. by intros h Hh ->. }
    rewrite !search_filter_loop_first; [|done|].
    + rewrite first_occurrences_snoc. rewrite decide_True, app_nil_r; [done|].
      cbn. rewrite Hm, <- Hm'. by apply list_elem_of_fmap_2.
    + apply Forall_app. split; [done|]. by constructor.
Qed.

Lemma search_filter_repeated_column_witness :
  _export_get_search_filter
    {| get_search_fields := λ _, ["^name"; "@bio"] ++ ["=name"];
       get_list_filter := λ _, [] |}
    {| GET := ∅; user := 1 |} ["Art"]
  = _export_get_search_filter
      {| get_search_fields := λ _, ["^name"; "@bio"];
         get_list_filter := λ _, [] |}
      {| GET := ∅; user := 1 |} ["Art"].
Proof.
  apply (search_filter_repeated_column _ _ _ _
           "=name" "^name" "name__iexact" "name__istartswith" "name").
  - reflexivity.
  - cbn. apply list_elem_of_here.
  - reflexivity.
  - reflexivity.
Defined.

Lemma first_occurrences_all used fields :
  NoDup (model_field_of <$> fields) →
  (∀ f, f ∈ fields → model_field_of f ∉ used) →
  first_occurrences used fields = fields.
Proof.
  revert used. induction fields as [|g fields IH]; intros used Hnd Hused.
  { done. }
  rewrite fmap_cons, NoDup_cons in Hnd. destruct Hnd as [Hg Hnd].
  cbn. rewrite decide_False by (apply Hused, list_elem_of_here).
  f_equal. apply IH; [done|]. intros f Hf.
  rewrite not_elem_of_app, list_elem_of_singleton. split.
  - apply Hused. by apply list_elem_of_further.
  - intros Heq. apply Hg. rewrite <- Heq. by apply list_elem_of_fmap_2.
Qed.

(** X5: when no two search fields share a column, every field has its entry and
    the order of the fields does not matter. *)
Theorem search_filter_permutation (self self' : ModelAdmin)
    (request : WSGIRequest) (value : list string) :
  get_search_fields self request ≡ₚ get_search_fields self' request →
  NoDup (strip_search_prefix <$> get_search_fields self request) →
  _export_get_search_filter self request value
    = _export_get_search_filter self' request value
  ∧ (Forall (λ f, f ≠ "") (get_search_fields self request) →
     ∃ search_kwargs,
       _export_get_search_filter self request value = Ok search_kwargs
       ∧ size search_kwargs = length (get_search_fields self request)).
Proof.
  intros Hperm Hnd. unfold _export_get_search_filter.
  set (v := match value with v :: _ => v | [] => "" end).
  destruct (decide ("" ∈ get_search_fields self request)) as [Hin|Hin].
  { split.
    - rewrite !search_filter_loop_empty_field; [done|by rewrite <- Hperm|done].
    - intros Hne. rewrite Forall_forall in Hne. by destruct (Hne "" Hin). }
  assert (Hne : Forall (λ f, f ≠ "") (get_search_fields self request)).
  { apply Forall_forall. by intros h Hh ->. }
  assert (Hne' : Forall (λ f, f ≠ "") (get_search_fields self' request))
    by (by rewrite <- Hperm).
  assert (Hnd' : NoDup (model_field_of <$> get_search_fields self' request))
    by (by rewrite <- Hperm).
  rewrite !search_filter_loop_first by done.
  rewrite !first_occurrences_all
    by (exact Hnd || exact Hnd' || (intros; apply not_elem_of_nil)).
  split.
  - f_equal. apply map_eq. intros k. rewrite !lookup_insert_all.
    apply decide_ext. by rewrite Hperm.
  - intros _. eexists. split; [done|].
    rewrite <- size_dom, dom_insert_all.
    rewrite (size_list_to_set (C:=gset string)); [by rewrite length_fmap|].
    pose proof (NoDup_lookup_first_occurrences []
                  (get_search_fields self request)) as Hl.
    rewrite first_occurrences_all in Hl
      by (exact Hnd || (intros; apply not_elem_of_nil)).
    exact Hl.
Qed.

Lemma search_filter_permutation_witness :
  _export_get_search_filter
    {| get_search_fields := λ _, ["^name"; "@bio"];
       get_list_filter := λ _, [] |}
    {| GET := ∅; user := 1 |} ["Art"]
  = _export_get_search_filter
      {| get_search_fields := λ _, ["@bio"; "^name"];
         get_list_filter := λ _, [] |}
      {| GET := ∅; user := 1 |} ["Art"].
Proof.
  apply (search_filter_permutation
           {| get_search_fields := λ _, ["^name"; "@bio"];
              get_list_filter := λ _, [] |}
           {| get_search_fields := λ _, ["@bio"; "^name"];
              get_list_filter := λ _, [] |}).
  - cbn. apply Permutation_swap.
  - cbn. repeat constructor; set_solver.
Defined.

(** ** More on the admin resolver *)

(** X6: the resolver never lets anything else through: an entry of its output
    is either [search], holding the search filter built from [q], or a
    permitted key of the query other than [q], holding the last of the
    key's values as a string. *)
Theorem admin_filter_entries (self : ModelAdmin) (request : WSGIRequest)
    (admin_filter : gmap string value) (k : string) (v : value) :
  _export_get_admin_filter self request = Ok admin_filter →
  admin_filter !! k = Some v →
  (k = "search"
   ∧ ∃ search_kwargs,
       v = VDict search_kwargs
       ∧ _export_get_search_filter self request
           (default [] (GET request !! "q")) = Ok search_kwargs)
  ∨ (k ≠ "search" ∧ k ≠ "q"
     ∧ k ∈ get_list_filter self request
     ∧ ∃ values s,
         GET request !! k = Some values
         ∧ last values = Some s
         ∧ v = VStr s).
Proof.
  intros Hres Hk.
  destruct (decide (k = "search")) as [->|Hsearch].
  { left. split; [done|].
    destruct (lookup_admin_filter_search _ _ _ Hres) as (kw & Hkw & Hs).
    exists kw. split; [congruence|done]. }
  right. destruct (decide (k = "q")) as [->|Hq].
  { by rewrite (lookup_admin_filter_q _ _ _ Hres) in Hk. }
  rewrite (lookup_admin_filter _ _ _ _ Hres) in Hk
    by (unfold reserved; tauto).
  destruct (GET request !! k) as [values|]; [|done]. cbn in Hk.
  case_decide as Hin; [|done].
  destruct (last values) as [s|] eqn:Hlast; [|done].
  injection Hk as <-. split_and!; [done..|]. by exists values, s.
Qed.

Lemma admin_filter_entries_witness :
  "name" ≠ "search" ∧ "name" ≠ "q"
  ∧ ∃ values s,
      ({[ "name" := ["first"; "second"]; "page" := ["2"] ]}
         : gmap string (list string)) !! "name" = Some values
      ∧ last values = Some s
      ∧ VStr "second" = VStr s.
Proof.
  destruct (admin_filter_entries
              {| get_search_fields := λ _, [];
                 get_list_filter := λ _, ["name"] |}
              {| GET := {[ "name" := ["first"; "second"]; "page" := ["2"] ]};
                 user := 1 |}
              {[ "name" := VStr "second"; "search" := VDict ∅ ]}
              "name" (VStr "second"))
    as [[Hk _]|(Hs & Hq & _ & Hv)].
  - vm_compute. reflexivity.
  - vm_compute. reflexivity.
  - discriminate Hk.
  - split_and!; [exact Hs|exact Hq|exact Hv].
Defined.

(** ** [CeleryExportAdminMixin.get_resource_kwargs] *)

(** X8: [get_resource_kwargs] fails when the base class does, and otherwise
    exactly when a search field is empty; when it returns, all the keyword
    arguments of the base class are there but [admin_filters], which holds
    the admin filter whatever the base class had put under that name. *)
Theorem get_resource_kwargs_admin_filters (self : ModelAdmin)
    (request : WSGIRequest) (base : gmap string kwarg) :
  (∀ e, get_resource_kwargs self (Raise e) request = Raise e)
  ∧ ("" ∈ get_search_fields self request →
     get_resource_kwargs self (Ok base) request = Raise IndexError)
  ∧ ("" ∉ get_search_fields self request →
     ∃ admin_filter resource_kwargs,
       _export_get_admin_filter self request = Ok admin_filter
       ∧ get_resource_kwargs self (Ok base) request = Ok resource_kwargs
       ∧ resource_kwargs !! "admin_filters" = Some (KwDict admin_filter)
       ∧ (∀ k, k ≠ "admin_filters" → resource_kwargs !! k = base !! k)
       ∧ dom resource_kwargs = {[ "admin_filters" ]} ∪ dom base).
Proof.
  unfold get_resource_kwargs. split_and!.
  - done.
  - intros Hin. cbn. by rewrite (admin_filter_raises _ _ Hin).
  - intros Hin.
    assert (Hne : Forall (λ f, f ≠ "") (get_search_fields self request)).
    { apply Forall_forall. by intros f Hf ->. }
    destruct (admin_filter_returns _ _ Hne) as [kw Hres].
    eexists _, _. split; [exact Hres|]. cbn. rewrite Hres. cbn.
    split_and!; [done|by rewrite lookup_insert_eq| |by rewrite dom_insert_L].
    intros k Hk. by rewrite lookup_insert_ne.
Qed.

Lemma get_resource_kwargs_admin_filters_witness :
  ∃ admin_filter resource_kwargs,
    get_resource_kwargs
      {| get_search_fields := λ _, ["name"];
         get_list_filter := λ _, ["name"] |}
      (Ok {[ "admin_filters" := KwValue (VStr "stale");
             "encoding" := KwValue (VStr "utf-8") ]})
      {| GET := {[ "name" := ["Artist"] ]}; user := 1 |}
    = Ok resource_kwargs
    ∧ resource_kwargs !! "admin_filters" = Some (KwDict admin_filter)
    ∧ resource_kwargs !! "encoding" = Some (KwValue (VStr "utf-8")).
Proof.
  destruct (get_resource_kwargs_admin_filters
              {| get_search_fields := λ _, ["name"];
                 get_list_filter := λ _, ["name"] |}
              {| GET := {[ "name" := ["Artist"] ]}; user := 1 |}
              {[ "admin_filters" := KwValue (VStr "stale");
                 "encoding" := KwValue (VStr "utf-8") ]})
    as (_ & _ & Hok).
  destruct Hok as (af & kwargs & _ & Hres & Haf & Hother & _).
  - cbn. set_solver.
  - exists af, kwargs. split_and!; [exact Hres|exact Haf|].
    rewrite Hother by discriminate. vm_compute. reflexivity.
Defined.

(** ** The format path of a created job *)

Lemma str_mem_app c (a b : string) :
  str_mem c (a +:+ b) = str_mem c a || str_mem c b.
Proof.
  induction a as [|x a IH]; [done|].
  rewrite string_app_cons. cbn. rewrite IH. by rewrite orb_assoc.
Qed.

Lemma dotted_path_inj (m m' n n' : string) :
  str_mem "." n = false → str_mem "." n' = false →
  m +:+ "." +:+ n = m' +:+ "." +:+ n' → m = m' ∧ n = n'.
Proof.
  intros Hn Hn' Heq.
  apply string_app_eq_app in Heq as [d [[-> Hd]|[-> Hd]]].
  - destruct d as [|x d].
    + rewrite string_app_nil_r. rewrite ?string_app_nil_l in Hd.
      apply (inj (String.app ".")) in Hd. by subst.
    + exfalso. rewrite !string_app_cons, string_app_nil_l in Hd.
      injection Hd as _ ->. rewrite str_mem_app in Hn'. cbn in Hn'.
      by rewrite orb_true_r in Hn'.
  - destruct d as [|x d].
    + rewrite string_app_nil_r. rewrite ?string_app_nil_l in Hd.
      apply (inj (String.app ".")) in Hd. by subst.
    + exfalso. rewrite !string_app_cons, string_app_nil_l in Hd.
      injection Hd as _ ->. rewrite str_mem_app in Hn. cbn in Hn.
      by rewrite orb_true_r in Hn.
Qed.

(** X9: the format path a job is created with tells the format: two formats
    whose class names hold no dot, as class names do, and whose jobs get
    the same path are the same format. *)
Theorem create_export_job_format_path_inj (request request' : WSGIRequest)
    (resource resource' : ResourceType) (kwargs kwargs' : gmap string value)
    (file_format file_format' : FormatType) (db db' : database) :
  str_mem "." (__name__ file_format) = false →
  str_mem "." (__name__ file_format') = false →
  file_format_path
    (create_export_job request resource kwargs file_format db).1
  = file_format_path
      (create_export_job request' resource' kwargs' file_format' db').1 →
  file_format = file_format'.
Proof.
  intros Hn Hn'. cbn. intros Heq.
  apply dotted_path_inj in Heq as [Hm Hname]; [|done..].
  destruct file_format, file_format'. cbn in *. by subst.
Qed.

Lemma create_export_job_format_path_inj_witness :
  {| __module__ := "import_export.formats.base_formats"; __name__ := "CSV" |}
  = {| __module__ := "import_export.formats.base_formats"; __name__ := "CSV" |}.
Proof.
  apply (create_export_job_format_path_inj
           {| GET := ∅; user := 1 |} {| GET := ∅; user := 2 |}
           {| class_path := "a.A" |} {| class_path := "b.B" |} ∅ ∅
           _ _ {| jobs := ∅; queue := [] |} {| jobs := ∅; queue := [1] |});
    reflexivity.
Defined.

(** ** The status view and the results view *)

Lemma get_export_job_cases request job_id db :
  match jobs db !! job_id with
  | Some job => get_export_job request job_id db = Ok job
  | None => get_export_job request job_id db = Raise Http404
  end.
Proof.
  unfold get_export_job, get_object_or_404. by destruct (jobs db !! job_id).
Qed.

(** X10: the two views of a job answer each other.  They fail alike: with
    [PermissionDenied] without the export permission, even for an id no job
    has, and otherwise with [Http404] for such an id.  For a job that is
    there exactly one of them renders its template, with the job in the
    context, and the other redirects to it: the status view redirects to
    the results when the job's status is one of [export_results_statuses],
    the results view redirects to the status when it is not. *)
Theorem status_and_results_views_complement (self : ExportAdmin)
    (request : AdminRequest) (job_id : nat) (db : database) :
  (has_export_permission self request = false →
   export_job_status_view self request job_id db = Fail PermissionDenied
   ∧ export_job_results_view self request job_id db = Fail PermissionDenied)
  ∧ (has_export_permission self request = true →
     jobs db !! job_id = None →
     export_job_status_view self request job_id db = Fail (Uncaught Http404)
     ∧ export_job_results_view self request job_id db
         = Fail (Uncaught Http404))
  ∧ (∀ job,
       has_export_permission self request = true →
       jobs db !! job_id = Some job →
       (export_status job ∈ export_results_statuses self →
        export_job_status_view self request job_id db
          = Done (_redirect_to_export_results_page self request job)
        ∧ ∃ context,
            export_job_results_view self request job_id db
              = Done (TemplateResponse [export_results_template_name]
                        context None)
            ∧ context !! "export_job" = Some (CJob job)
            ∧ context !! "result" = Some (CStatus (export_status job)))
       ∧ (export_status job ∉ export_results_statuses self →
          export_job_results_view self request job_id db
            = Done (_redirect_to_export_status_page self request job)
          ∧ ∃ context,
              export_job_status_view self request job_id db
                = Done (TemplateResponse [export_status_template_name]
                          context (Some (admin_site_name self)))
              ∧ context !! "export_job" = Some (CJob job)
              ∧ context !! "export_job_url"
                  = Some (CUrl (reverse self "admin:export_job_progress"
                                  (id job))))).
Proof.
  unfold export_job_status_view, export_job_results_view.
  pose proof (get_export_job_cases (wsgi request) job_id db) as Hjob.
  split_and!.
  - by intros ->.
  - intros -> Hnone. rewrite Hnone in Hjob. by rewrite Hjob.
  - intros job -> Hsome. rewrite Hsome in Hjob. rewrite Hjob. cbn [negb].
    split.
    + intros Hin. rewrite !decide_True by done. split; [done|].
      eexists. split; [done|]. split.
      * rewrite lookup_insert_ne by done. by rewrite lookup_insert_eq.
      * by rewrite lookup_insert_eq.
    + intros Hin. rewrite !decide_False by done. split; [done|].
      eexists. split; [done|]. split.
      * rewrite lookup_insert_ne by done. by rewrite lookup_insert_eq.
      * by rewrite lookup_insert_eq.
Qed.

Lemma status_and_results_views_complement_witness :
  let job := {| id := 7;
                export_status := EXPORTING;
                resource_path :=
                  "test_project.fake_app.resources.ArtistResource";
                resource_kwargs := ∅;
                file_format_path := "import_export.formats.base_formats.CSV";
                created_by := None |} in
  let db := {| jobs := {[ 7 := job ]}; queue := [] |} in
  let request := {| wsgi := {| GET := ∅; user := 1 |}; method := "GET" |} in
  export_job_results_view (sample_admin true) request 7 db
    = Done (HttpResponseRedirect "/admin:fake_app_artist_export_job_status/7/")
  ∧ export_job_status_view (sample_admin false) request 8 db
      = Fail PermissionDenied
  ∧ export_job_status_view (sample_admin true) request 8 db
      = Fail (Uncaught Http404).
Proof.
  intros job db request. split_and!.
  - destruct (status_and_results_views_complement
                (sample_admin true) request 7 db) as (_ & _ & Hjob).
    destruct (Hjob job) as [_ Hrunning];
      [reflexivity|vm_compute; reflexivity|].
    destruct Hrunning as [Hres _]; [|exact Hres].
    cbn. rewrite !not_elem_of_cons. split_and!; [done..|apply not_elem_of_nil].
  - apply (status_and_results_views_complement
             (sample_admin false) request 8 db). reflexivity.
  - apply (status_and_results_views_complement
             (sample_admin true) request 8 db);
      [reflexivity|vm_compute; reflexivity].
Defined.

(** ** The export action *)

Lemma list_getitem_elem_of {A} (l : list A) i x :
  list_getitem l i = Ok x → x ∈ l.
Proof.
  unfold list_getitem. cbn zeta. case_decide; [|done].
  destruct (l !! _) as [y|] eqn:Hy; [|done].
  intros [= <-]. by eapply list_elem_of_lookup_2.
Qed.




(** X12: unless the request is a POST of a valid form, the export action writes
    nothing: it renders the export form, with the form, the title and the
    options in the context over whatever the base contexts hold, and the
    database stays as it was. *)
Theorem celery_export_action_shows_form (self : ExportAdmin)
    (request : AdminRequest) (db : database) (kwargs : gmap string value) :
  has_export_permission self request = true →
  get_export_resource_kwargs self request = Ok kwargs →
  method request ≠ "POST" ∨ is_valid (export_form self request) = false →
  ∃ context,
    celery_export_action self request db
      = Done (TemplateResponse [celery_export_template_name] context
                (Some (admin_site_name self)), db)
    ∧ context !! "form" = Some (CForm (export_form self request))
    ∧ context !! "title" = Some (CText (gettext self "Export"))
    ∧ context !! "opts" = Some (model_info_meta self)
    ∧ (∀ k, k ≠ "form" → k ≠ "title" → k ≠ "opts" →
         context !! k
         = match each_context self request !! k with
           | Some v => Some v
           | None => get_context_data self !! k
           end).
Proof.
  intros Hperm Hkwargs Hshow. unfold celery_export_action.
  rewrite Hperm, Hkwargs. cbn [negb].
  assert (bool_decide (method request = "POST")
            && is_valid (export_form self request) = false) as ->.
  { destruct Hshow as [Hm| ->]; [|apply andb_false_r].
    by rewrite bool_decide_eq_false_2. }
  eexists. split; [done|]. split_and!.
  - rewrite lookup_insert_ne by done. by rewrite lookup_insert_eq.
  - rewrite !lookup_insert_ne by done. by rewrite lookup_insert_eq.
  - by rewrite lookup_insert_eq.
  - intros k Hf Ht Ho. rewrite !lookup_insert_ne by done.
    unfold get_export_context_data. rewrite lookup_union.
    by destruct (each_context self request !! k), (get_context_data self !! k).
Qed.

Lemma celery_export_action_shows_form_witness :
  ∃ context,
    celery_export_action (sample_admin true)
      {| wsgi := {| GET := ∅; user := 1 |}; method := "GET" |}
      {| jobs := ∅; queue := [] |}
    = Done (TemplateResponse [celery_export_template_name] context
              (Some "admin"), {| jobs := ∅; queue := [] |})
    ∧ context !! "title" = Some (CText "Export").
Proof.
  destruct (celery_export_action_shows_form (sample_admin true)
              {| wsgi := {| GET := ∅; user := 1 |}; method := "GET" |}
              {| jobs := ∅; queue := [] |} ∅)
    as (context & Hres & _ & Htitle & _).
  - reflexivity.
  - reflexivity.
  - left. discriminate.
  - exists context. split; [exact Hres|exact Htitle].
Defined.

(** X13: a POST of a valid form whose format index is in range creates one job
    and redirects to its status page: the job is new, [CREATED], made from
    the chosen resource, the keyword arguments and the format at the index,
    which is one of the export formats; no other job changes; and the
    status view then shows this very job, as long as [CREATED] is not one
    of the statuses that belong on the results page. *)
Theorem celery_export_action_creates_job (self : ExportAdmin)
    (request : AdminRequest) (db : database) (kwargs : gmap string value)
    (file_format : FormatType) :
  has_export_permission self request = true →
  get_export_resource_kwargs self request = Ok kwargs →
  method request = "POST" →
  is_valid (export_form self request) = true →
  list_getitem (get_export_formats self)
    (format_index (export_form self request)) = Ok file_format →
  ∃ job db',
    celery_export_action self request db
      = Done (_redirect_to_export_status_page self request job, db')
    ∧ file_format ∈ get_export_formats self
    ∧ jobs db !! id job = None
    ∧ jobs db' !! id job = Some job
    ∧ export_status job = CREATED
    ∧ resource_path job
        = class_path (choose_export_resource_class self
                        (export_form self request) request)
    ∧ resource_kwargs job = kwargs
    ∧ file_format_path job
        = __module__ file_format +:+ "." +:+ __name__ file_format
    ∧ (∀ pk, pk ≠ id job → jobs db' !! pk = jobs db !! pk)
    ∧ (CREATED ∉ export_results_statuses self →
       ∃ context,
         export_job_status_view self request (id job) db'
           = Done (TemplateResponse [export_status_template_name] context
                     (Some (admin_site_name self)))
         ∧ context !! "export_job" = Some (CJob job)).
Proof.
  intros Hperm Hkwargs Hpost Hvalid Hformat. unfold celery_export_action.
  rewrite Hperm, Hkwargs, Hvalid, Hformat. cbn [negb].
  rewrite bool_decide_eq_true_2 by done. cbn [andb].
  pose proof (objects_create_spec
                (class_path (choose_export_resource_class self
                               (export_form self request) request))
                kwargs
                (__module__ file_format +:+ "." +:+ __name__ file_format)
                None db) as Hspec.
  unfold create_export_job.
  destruct (ExportJob_objects_create _ _ _ _ _) as [job db'].
  destruct Hspec as (Hnew & Hsaved & Hother & _ & Hjob).
  exists job, db'. split; [done|].
  split; [by eapply list_getitem_elem_of|].
  split_and!; [done|done|by rewrite Hjob..|done|].
  intros Hcreated. unfold export_job_status_view.
  rewrite Hperm. cbn [negb].
  pose proof (get_export_job_cases (wsgi request) (id job) db') as Hget.
  rewrite Hsaved in Hget. rewrite Hget.
  rewrite decide_False by (by rewrite Hjob).
  eexists. split; [done|].
  rewrite lookup_insert_ne by done. by rewrite lookup_insert_eq.
Qed.

Lemma celery_export_action_creates_job_witness :
  ∃ job db',
    celery_export_action (sample_admin true)
      {| wsgi := {| GET := ∅; user := 1 |}; method := "POST" |}
      {| jobs := ∅; queue := [] |}
    = Done (_redirect_to_export_status_page (sample_admin true)
              {| wsgi := {| GET := ∅; user := 1 |}; method := "POST" |} job,
            db')
    ∧ file_format_path job = "import_export.formats.base_formats.JSON"
    ∧ export_status job = CREATED.
Proof.
  destruct (celery_export_action_creates_job (sample_admin true)
              {| wsgi := {| GET := ∅; user := 1 |}; method := "POST" |}
              {| jobs := ∅; queue := [] |} ∅
              {| __module__ := "import_export.formats.base_formats";
                 __name__ := "JSON" |})
    as (job & db' & Hres & _ & _ & _ & Hstatus & _ & _ & Hpath & _);
    [reflexivity..|].
  exists job, db'. split_and!; [exact Hres|exact Hpath|exact Hstatus].
Defined.

(** ** Parameters the resolver does not permit *)

(** X7: a query parameter that is neither [q] nor a permitted filter field is
    ignored altogether: with it or without it, whatever its values, the
    resolver gives the same result. *)
Theorem admin_filter_ignores_unpermitted (self : ModelAdmin)
    (request request' : WSGIRequest) (key : string) (values : list string) :
  GET request' = <[key := values]> (GET request) →
  get_search_fields self request' = get_search_fields self request →
  get_list_filter self request' = get_list_filter self request →
  key ≠ "q" →
  key ∉ get_list_filter self request →
  _export_get_admin_filter self request'
    = _export_get_admin_filter self request.
Proof.
  intros HGET Hsearch Hfilter Hq Hkey.
  unfold _export_get_admin_filter, _export_get_search_filter.
  rewrite HGET, Hsearch. rewrite lookup_insert_ne by done.
  destruct (search_filter_loop _ _ _ _) as [kw|e]; [|done].
  cbn. do 2 f_equal. apply map_eq. intros k.
  rewrite !lookup_admin_filter_comprehension, Hfilter.
  destruct (decide (k = key)) as [->|Hk].
  - rewrite !lookup_delete_ne by done. rewrite lookup_insert_eq. cbn.
    rewrite decide_False by done.
    destruct (GET request !! key); [cbn; by rewrite decide_False|done].
  - destruct (decide (k = "q")) as [->|Hkq].
    + by rewrite !lookup_delete_eq.
    + rewrite !lookup_delete_ne by done. by rewrite lookup_insert_ne.
Qed.

Lemma admin_filter_ignores_unpermitted_witness :
  _export_get_admin_filter
    {| get_search_fields := λ _, ["name"];
       get_list_filter := λ _, ["name"] |}
    {| GET := <["is_staff" := ["1"]]> {[ "name" := ["Artist"] ]}; user := 1 |}
  = _export_get_admin_filter
      {| get_search_fields := λ _, ["name"];
         get_list_filter := λ _, ["name"] |}
      {| GET := {[ "name" := ["Artist"] ]}; user := 1 |}.
Proof.
  apply (admin_filter_ignores_unpermitted _ _ _ "is_staff" ["1"]).
  - reflexivity.
  - reflexivity.
  - reflexivity.
  - discriminate.
  - cbn. rewrite not_elem_of_cons. split; [discriminate|apply not_elem_of_nil].
Defined.
